(** * Client.js: the event bridge, the QR handshake and the command surface

    A shallow embedding of [src/Client.js].  Host callbacks registered with
    [page.exposeFunction] are functions from the raw record they receive to
    the list of events they emit, in emission order; the variables they
    close over ([last_message], [qrRetries]) are passed explicitly.
    Commands that run in the page are functions over an explicit store. *)

From Stdlib Require Import ZArith Lia.
From stdpp Require Import gmap strings list fin_maps.

Local Open Scope string_scope.

(** ** JavaScript values, errors and promises *)

(** The constructors [Client.js] tests with [instanceof]; [Object] stands
    for every other object. *)
Inductive Class :=
| MessageMedia | Location | Contact | Buttons | List | Object.

Definition Class_eqb (c d : Class) : bool :=
  match c, d with
  | MessageMedia, MessageMedia | Location, Location | Contact, Contact
  | Buttons, Buttons | List, List | Object, Object => true
  | _, _ => false
  end.

(** A value: primitives, arrays, and objects as a constructor together
    with the map of their own properties. *)
#[local] Set Warnings "-register-all".
Inductive Val :=
| VUndefined
| VNull
| VBool (b : bool)
| VNum (n : Z)
| VStr (s : string)
| VArr (items : list Val)
| VObj (cls : Class) (props : gmap string Val).
#[local] Set Warnings "register-all".

Inductive JsError :=
| TypeError (msg : string)
| ReferenceError (ident : string)
| Error (msg : string).

(** A computation that returns or throws. *)
Inductive result (A : Type) :=
| Ok (a : A)
| Throw (e : JsError).
Arguments Ok {A} a.
Arguments Throw {A} e.

#[global] Instance result_ret : MRet result := fun A a => Ok a.
#[global] Instance result_bind : MBind result := fun A B f m =>
  match m with
  | Ok a => f a
  | Throw e => Throw e
  end.

#[global] Instance result_fmap : FMap result := fun A B f m =>
  match m with
  | Ok a => Ok (f a)
  | Throw e => Throw e
  end.

(** How an awaited promise settles, if it does. *)
Inductive Outcome (A : Type) :=
| Resolved (a : A)
| Rejected (e : JsError)
| Pending.
Arguments Resolved {A} a.
Arguments Rejected {A} e.
Arguments Pending {A}.

(** Truthiness, as [if (v)], [v ? a : b] and [v && w] test it. *)
Definition truthy (v : Val) : bool :=
  match v with
  | VUndefined | VNull => false
  | VBool b => b
  | VNum n => negb (n =? 0)%Z
  | VStr s => negb (String.eqb s "")
  | VArr _ | VObj _ _ => true
  end.

(** [v instanceof C]. *)
Definition instanceOf (v : Val) (C : Class) : bool :=
  match v with
  | VObj cls _ => Class_eqb cls C
  | _ => false
  end.

(** [Array.isArray(v)]. *)
Definition isArray (v : Val) : bool :=
  match v with
  | VArr _ => true
  | _ => false
  end.

(** The property read [v.k]: a [TypeError] on [undefined] and [null],
    [undefined] for a property the value does not have. *)
Definition get (v : Val) (k : string) : result Val :=
  match v with
  | VUndefined | VNull =>
      Throw (TypeError ("Cannot read properties of undefined or null, reading " +:+ k))
  | VObj _ props => Ok (default VUndefined (props !! k))
  | _ => Ok VUndefined
  end.

(** [v.length] and [v[i]] on an array. *)
Definition items (v : Val) : list Val :=
  match v with
  | VArr l => l
  | _ => []
  end.

Definition index (v : Val) (i : nat) : Val := default VUndefined (items v !! i).

(** [v === 's'] for a string literal. *)
Definition is_vstr (v : Val) (t : string) : bool :=
  match v with
  | VStr s => String.eqb s t
  | _ => false
  end.

(** [s.endsWith(t)] and [s.startsWith(t)]. *)
Definition startsWith (s t : string) : bool := String.prefix t s.

Definition endsWith (s t : string) : bool :=
  String.eqb (String.substring (String.length s - String.length t) (String.length t) s) t
  && (String.length t <=? String.length s)%nat.

(** ** Records crossing the page boundary *)

(** [msg.id]: the key object of a serialized message. *)
Record MsgKey := mkMsgKey {
  key_fromMe : bool;
  key_remote : string;
  key_id : string;
  key_serialized : string
}.

(** The serialized message model handed to the host callbacks; only the
    fields [Client.js] reads, plus the body as the rest of the content. *)
Record RawMsg := mkRawMsg {
  isNewMsg : bool;
  msg_type : string;
  msg_subtype : option string;
  msg_id : MsgKey;
  msg_body : string
}.

(** [new Message(this, msg)] and [new GroupNotification(this, msg)]: the
    structures wrap the raw record they are built from. *)
Inductive Message := mkMessage (data : RawMsg).
Inductive GroupNotification := mkGroupNotification (data : RawMsg).

(** ** The public event stream

    One constructor per [Events.*] constant used with [this.emit], carrying
    the arguments of the call. *)
Inductive Event :=
| QR_RECEIVED (qr : string)
| AUTHENTICATED (authEventPayload : Val)
| READY (args : list Val)
| MESSAGE_CREATE (message : Message)
| MESSAGE_RECEIVED (message : Message)
| MESSAGE_REVOKED_EVERYONE (message : Message) (revoked_msg : option Message)
| MESSAGE_REVOKED_ME (message : Message)
| GROUP_JOIN (notification : GroupNotification)
| GROUP_LEAVE (notification : GroupNotification)
| GROUP_UPDATE (notification : GroupNotification)
| STATE_CHANGED (state : string)
| DISCONNECTED (reason : string).

(** The event names, as the [@event Client#...] annotations give them. *)
Definition event_name (e : Event) : string :=
  match e with
  | QR_RECEIVED _ => "qr"
  | AUTHENTICATED _ => "authenticated"
  | READY _ => "ready"
  | MESSAGE_CREATE _ => "message_create"
  | MESSAGE_RECEIVED _ => "message"
  | MESSAGE_REVOKED_EVERYONE _ _ => "message_revoke_everyone"
  | MESSAGE_REVOKED_ME _ => "message_revoke_me"
  | GROUP_JOIN _ => "group_join"
  | GROUP_LEAVE _ => "group_leave"
  | GROUP_UPDATE _ => "group_update"
  | STATE_CHANGED _ => "change_state"
  | DISCONNECTED _ => "disconnected"
  end.

(** [s === t] on an optional string property against a literal. *)
Definition is_str (o : option string) (t : string) : bool :=
  match o with
  | Some s => String.eqb s t
  | None => false
  end.

(** ** Effects

    What a host function does besides returning: the events it emits and
    the calls it makes on puppeteer, the page, the store of the page, [fs],
    timers and the console, in program order. *)

(** The awaited calls on puppeteer, the browser and the page. *)
Inductive Step :=
| Connect | NewPage | Launch | Pages
| Authenticate | EvaluateOnNewDocument | SetBypassCSP | Goto
| ExposeFunction (name : string)
| EvaluateQrObserver | WaitForIntroImage
| EvaluateExposeStore | EvaluateLocalStorage | WaitForStore
| EvaluateIsMD | EvaluateUnregisterServiceWorkers | EvaluateLoadUtils
| EvaluateClientInfo | EvaluateStoreWiring
| EvaluateLogout | EvaluateTakeover
| BrowserClose.

Inductive FsFunction := rmSync | rmdirSync.

(** [window.Store.Cmd.pinChat(chat, pin)], by the id of the chat. *)
Inductive Cmd := Cmd_pinChat (chatId : string) (pin : bool).

Inductive Timer := Takeover.

Inductive Effect :=
| Emit (e : Event)
| Call (s : Step)
| Invoke (f : FsFunction) (thisArg : Val) (args : list Val)
| StoreCmd (c : Cmd)
| SetTimeout (callback : Timer) (ms : Val)
| ConsoleLog (line : string).

(** A host function: the effects it had, and how it ended. *)
Definition M (A : Type) : Type := list Effect * result A.

Definition M_ret {A} (a : A) : M A := ([], Ok a).

Definition M_bind {A B} (m : M A) (f : A -> M B) : M B :=
  match m with
  | (t, Ok a) => let '(t', r) := f a in ((t ++ t')%list, r)
  | (t, Throw e) => (t, Throw e)
  end.

Declare Scope js_scope.
Delimit Scope js_scope with js.
Notation "'let*' x ':=' m 'in' k" := (M_bind m (fun x => k))
  (at level 10, x name, m at level 100, k at level 200) : js_scope.

Definition emit (e : Event) : M unit := ([Emit e], Ok tt).
Definition throw {A} (e : JsError) : M A := ([], Throw e).
Definition effects {A} (m : M A) : list Effect := fst m.
Definition returned {A} (m : M A) : result A := snd m.

(** Every effect of a computation satisfies [P]. *)
Definition always {A} (P : Effect -> Prop) (m : M A) : Prop := Forall P (effects m).

(** The computation throws. *)
Definition throws {A} (m : M A) : Prop := exists e, returned m = Throw e.

(** The events among the effects, in order. *)
Definition emitted (t : list Effect) : list Event :=
  omap (fun x => match x with Emit e => Some e | _ => None end) t.

Module EventBridge.

(** [onAddMessageEvent], lines 268-315. *)
Definition onAddMessageEvent (msg : RawMsg) : list Event :=
  if negb (isNewMsg msg) then []
  else if String.eqb (msg_type msg) "gp2" then
    let notification := mkGroupNotification msg in
    if is_str (msg_subtype msg) "add" || is_str (msg_subtype msg) "invite" then
      [GROUP_JOIN notification]
    else if is_str (msg_subtype msg) "remove" || is_str (msg_subtype msg) "leave" then
      [GROUP_LEAVE notification]
    else
      [GROUP_UPDATE notification]
  else
    let message := mkMessage msg in
    MESSAGE_CREATE message ::
      (if key_fromMe (msg_id msg) then [] else [MESSAGE_RECEIVED message]).

(** [onChangeMessageEvent], lines 340-346: the new value of the
    [last_message] variable. *)
Definition onChangeMessageEvent (last_message : option RawMsg) (msg : RawMsg)
  : option RawMsg :=
  if negb (String.eqb (msg_type msg) "revoked") then Some msg else last_message.

(** [onChangeMessageTypeEvent], lines 319-338; [last_message] is only
    read. *)
Definition onChangeMessageTypeEvent (last_message : option RawMsg) (msg : RawMsg)
  : list Event :=
  if String.eqb (msg_type msg) "revoked" then
    let message := mkMessage msg in
    let revoked_msg :=
      match last_message with
      | Some last =>
          if String.eqb (key_id (msg_id msg)) (key_id (msg_id last))
          then Some (mkMessage last) else None
      | None => None
      end in
    [MESSAGE_REVOKED_EVERYONE message revoked_msg]
  else [].

(** [onRemoveMessageEvent], lines 348-361. *)
Definition onRemoveMessageEvent (msg : RawMsg) : list Event :=
  if negb (isNewMsg msg) then [] else [MESSAGE_REVOKED_ME (mkMessage msg)].

(** The mutations of [window.Store.Msg] the page subscribes to, lines
    441-447 (those this development follows). *)
Inductive Mutation :=
| MsgAdd (msg : RawMsg)
| MsgChange (msg : RawMsg)
| MsgChangeType (msg : RawMsg)
| MsgRemove (msg : RawMsg).

(** State of the bridge: the [last_message] slot. *)
Definition Bridge := option RawMsg.

Section Wiring.
(** [window.WWebJS.getMessageModel] is injected from another file. *)
Variable getMessageModel : RawMsg -> RawMsg.

(** One notification of the store, through the subscription of lines
    442-447 into the exposed callback. *)
Definition deliver (last_message : Bridge) (mut : Mutation)
  : Bridge * list Event :=
  match mut with
  | MsgAdd msg =>
      (last_message,
       if isNewMsg msg then onAddMessageEvent (getMessageModel msg) else [])
  | MsgChange msg =>
      (onChangeMessageEvent last_message (getMessageModel msg), [])
  | MsgChangeType msg =>
      (last_message, onChangeMessageTypeEvent last_message (getMessageModel msg))
  | MsgRemove msg =>
      (last_message,
       if isNewMsg msg then onRemoveMessageEvent (getMessageModel msg) else [])
  end.

(** A stream of notifications, delivered in order. *)
Fixpoint run (last_message : Bridge) (muts : list Mutation)
  : Bridge * list Event :=
  match muts with
  | [] => (last_message, [])
  | mut :: rest =>
      let '(lm, evs) := deliver last_message mut in
      let '(lm', evs') := run lm rest in
      (lm', (evs ++ evs')%list)
  end.
End Wiring.

(** A message received in a chat, the same message once revoked, and the
    notification of an invitation into a group. *)
Definition received : RawMsg :=
  {| isNewMsg := true; msg_type := "chat"; msg_subtype := None;
     msg_id := mkMsgKey false "4915730000000@c.us" "3EB0A1B2C3"
                 "false_4915730000000@c.us_3EB0A1B2C3";
     msg_body := "see you at eight" |}.

Definition revoked : RawMsg :=
  {| isNewMsg := true; msg_type := "revoked"; msg_subtype := None;
     msg_id := msg_id received; msg_body := "" |}.

Definition invited : RawMsg :=
  {| isNewMsg := true; msg_type := "gp2"; msg_subtype := Some "invite";
     msg_id := mkMsgKey false "120363040000000000@g.us" "3EB0D4E5F6"
                 "false_120363040000000000@g.us_3EB0D4E5F6";
     msg_body := "" |}.

End EventBridge.

Module Handshake.

(** [qrChanged], lines 165-175: the callback exposed to the page, over the
    variable [qrRetries] it closes over.  Returns the new [qrRetries]. *)
Definition qrChanged (qrMaxRetries : Z) (qrRetries : Z) (qr : string)
  : Z * list Effect :=
  let emitted_qr := [Emit (QR_RECEIVED qr)] in
  if (qrMaxRetries >? 0)%Z then
    let qrRetries := (qrRetries + 1)%Z in
    if (qrRetries >? qrMaxRetries)%Z then
      (qrRetries,
       (emitted_qr ++ [Emit (DISCONNECTED "Max qrcode retries reached");
                       Call BrowserClose])%list)
    else (qrRetries, emitted_qr)
  else (qrRetries, emitted_qr).

(** The page calls [window.qrChanged] once with the first token and once
    per change of the token (lines 179 and 185): the effects of each call,
    from [let qrRetries = 0]. *)
Fixpoint qr_calls (qrMaxRetries : Z) (qrRetries : Z) (tokens : list string)
  : Z * list (list Effect) :=
  match tokens with
  | [] => (qrRetries, [])
  | qr :: rest =>
      let '(n, t) := qrChanged qrMaxRetries qrRetries qr in
      let '(n', ts) := qr_calls qrMaxRetries n rest in
      (n', t :: ts)
  end.

Definition qr_flow (qrMaxRetries : Z) (tokens : list string) :=
  qr_calls qrMaxRetries 0 tokens.

(** The disconnects among the effects of one call. *)
Definition disconnects (t : list Effect) : list string :=
  omap (fun x => match x with Emit (DISCONNECTED r) => Some r | _ => None end) t.

Definition destroys (t : list Effect) : nat :=
  length (omap (fun x => match x with Call BrowserClose => Some tt | _ => None end) t).

End Handshake.

Module Session.

Local Open Scope js_scope.

(** The options [initialize] and the handlers read ([this.options]). *)
Record ClientOptions := mkClientOptions {
  authTimeoutMs : Z;
  qrMaxRetries : Z;
  takeoverOnConflict : Val;
  takeoverTimeoutMs : Val;
  useDeprecatedSessionAuth : bool;
  session : Val;
  bypassCSP : bool;
  browserWSEndpoint : Val
}.

(** What [Promise.race] of the two selector waits resolves to (lines
    144-155): [false], [true], or the error of the wait that lost its
    selector first. *)
Inductive Race :=
| IntroImageFirst
| QrCodeFirst
| RaceError (err : JsError).

(** The world [initialize] runs in: which awaited calls reject, the outcome
    of the race, the feature flag of the store, and the bindings of the
    global object, where an identifier that no declaration of the file
    binds is looked up. *)
Record World := mkWorld {
  rejects : Step -> option JsError;
  race : Race;
  MD_BACKEND : bool;
  localStorage : gmap string Val;
  globalThis : gmap string Val
}.

(** An awaited call. *)
Definition call (w : World) (s : Step) : M unit :=
  ([Call s], match rejects w s with Some e => Throw e | None => Ok tt end).

(** The identifiers in scope at line 456: the module's bindings, the
    bindings of the CommonJS wrapper, and those of [initialize]. *)
Definition declared_at_ready : list string :=
  [ "path"; "fs"; "EventEmitter"; "puppeteer"; "moduleRaid"; "Util";
    "InterfaceController"; "WhatsWebURL"; "DefaultOptions"; "Events"; "WAState";
    "ExposeStore"; "LoadUtils"; "ChatFactory"; "ContactFactory";
    "ClientInfo"; "Message"; "MessageMedia"; "Contact"; "Location";
    "GroupNotification"; "Label"; "Call"; "Buttons"; "List"; "Client";
    "require"; "module"; "exports"; "__filename"; "__dirname";
    "credentials"; "browser"; "page"; "puppeteerOpts"; "response";
    "INTRO_IMG_SELECTOR"; "INTRO_QRCODE_SELECTOR"; "needAuthentication";
    "authEventPayload"; "isMD"; "last_message" ].

(** Evaluation of an identifier that is not declared in the file: the
    property of the global object, or a [ReferenceError]. *)
Definition free_identifier (w : World) (x : string) : M Val :=
  match globalThis w !! x with
  | Some v => M_ret v
  | None => throw (ReferenceError x)
  end.

(** The eight callbacks exposed at lines 268-439, in order. *)
Definition exposed_callbacks : list string :=
  [ "onAddMessageEvent"; "onChangeMessageTypeEvent"; "onChangeMessageEvent";
    "onRemoveMessageEvent"; "onMessageAckEvent"; "onMessageMediaUploadedEvent";
    "onAppStateChangedEvent"; "onIncomingCall" ].

Fixpoint expose_all (w : World) (names : list string) : M unit :=
  match names with
  | [] => M_ret tt
  | name :: rest => let* _ := call w (ExposeFunction name) in expose_all w rest
  end.

(** [initialize], lines 93-464.  Calls that are not awaited and cannot
    throw here ([page.setUserAgent], [page.on]) leave no effect. *)
Definition initialize (o : ClientOptions) (w : World) (credentials : Val) : M unit :=
  let* _ :=
    if truthy (browserWSEndpoint o)
    then (let* _ := call w Connect in call w NewPage)
    else (let* _ := call w Launch in call w Pages) in
  let* _ := if truthy credentials then call w Authenticate else M_ret tt in
  let* _ :=
    if useDeprecatedSessionAuth o && truthy (session o)
    then call w EvaluateOnNewDocument else M_ret tt in
  let* _ := if bypassCSP o then call w SetBypassCSP else M_ret tt in
  let* _ := call w Goto in
  let* needAuthentication :=
    match race w with
    | IntroImageFirst => M_ret false
    | QrCodeFirst => M_ret true
    | RaceError err => throw err
    end in
  let* _ :=
    if (needAuthentication : bool) then
      let* _ := call w (ExposeFunction "qrChanged") in
      let* _ := call w EvaluateQrObserver in
      call w WaitForIntroImage
    else M_ret tt in
  let* _ := call w EvaluateExposeStore in
  let* authEventPayload :=
    if useDeprecatedSessionAuth o
    then
      let* _ := call w EvaluateLocalStorage in
      let item k := default VUndefined (localStorage w !! k) in
      M_ret (VObj Object
               (<["WABrowserId" := item "WABrowserId"]>
                (<["WASecretBundle" := item "WASecretBundle"]>
                 (<["WAToken1" := item "WAToken1"]>
                  {["WAToken2" := item "WAToken2"]}))))
    else M_ret VUndefined in
  let* _ := emit (AUTHENTICATED authEventPayload) in
  let* _ := call w WaitForStore in
  let* _ := call w EvaluateIsMD in
  let isMD := MD_BACKEND w in
  let* _ := call w EvaluateUnregisterServiceWorkers in
  let* _ :=
    if useDeprecatedSessionAuth o && isMD
    then throw (Error "Authenticating via JSON session is not supported for MultiDevice-enabled WhatsApp accounts.")
    else M_ret tt in
  let* _ := call w EvaluateLoadUtils in
  let* _ := call w EvaluateClientInfo in
  let* _ := expose_all w exposed_callbacks in
  let* _ := call w EvaluateStoreWiring in
  let* loggedAndTimeouted := free_identifier w "loggedAndTimeouted" in
  emit (READY [loggedAndTimeouted]).

(** The calls whose completion the ready event waits for: the handshake
    is over, the store is there, and the callbacks are installed. *)
Definition wired (t : list Effect) : bool :=
  match
    omap (fun x => match x with Call EvaluateStoreWiring => Some tt | _ => None end) t
  with
  | [] => false
  | _ => true
  end.

(** A world in which every call succeeds, the QR code comes first and is
    scanned, and the global object is that of Node. *)
Definition cooperative : World :=
  {| rejects := fun _ => None; race := QrCodeFirst; MD_BACKEND := true;
     localStorage := ∅; globalThis := ∅ |}.

Definition default_options : ClientOptions :=
  {| authTimeoutMs := 0; qrMaxRetries := 0; takeoverOnConflict := VBool false;
     takeoverTimeoutMs := VNum 0; useDeprecatedSessionAuth := false;
     session := VUndefined; bypassCSP := false; browserWSEndpoint := VUndefined |}.

(** [destroy], lines 469-471. *)
Definition destroy (w : World) : M unit := call w BrowserClose.

Section Logout.
(** What the function of [fs] does with the receiver and arguments it is
    called with belongs to Node. *)
Variable fs_apply : FsFunction -> Val -> list Val -> result Val.

(** [f.call(thisArg, ...args)] on a function of [fs]. *)
Definition Function_call (f : FsFunction) (thisArg : Val) (args : list Val) : M Val :=
  ([Invoke f thisArg args], fs_apply f thisArg args).

(** [logout], lines 476-484; [has_rmSync] is the truthiness of [fs.rmSync]. *)
Definition logout (w : World) (has_rmSync : bool) (dataDir : Val) : M Val :=
  let* _ := call w EvaluateLogout in
  if truthy dataDir then
    Function_call (if has_rmSync then rmSync else rmdirSync)
      dataDir [VObj Object {[ "recursive" := VBool true ]}]
  else M_ret VUndefined.
End Logout.

(** The signature [fs.rmSync(path[, options])] and [fs.rmdirSync(path[,
    options])]: the path is the first argument of the invocation. *)
Definition path_argument (x : Effect) : option Val :=
  match x with
  | Invoke _ _ args => Some (default VUndefined (head args))
  | _ => None
  end.

(** [WAState], of [util/Constants]: the states the handler names. *)
Record WAStateT := mkWAState {
  CONNECTED : string;
  OPENING : string;
  PAIRING : string;
  TIMEOUT : string;
  CONFLICT : string
}.

(** [ACCEPTED_STATES.includes(state)]. *)
Definition includes (l : list string) (s : string) : bool :=
  existsb (String.eqb s) l.

(** [onAppStateChangedEvent], lines 389-421. *)
Definition onAppStateChangedEvent (WAState : WAStateT) (o : ClientOptions)
  (state : string) : list Effect :=
  let changed := [Emit (STATE_CHANGED state)] in
  let ACCEPTED_STATES :=
    [CONNECTED WAState; OPENING WAState; PAIRING WAState; TIMEOUT WAState] in
  let '(ACCEPTED_STATES, timers) :=
    if truthy (takeoverOnConflict o) then
      ((ACCEPTED_STATES ++ [CONFLICT WAState])%list,
       if String.eqb state (CONFLICT WAState)
       then [SetTimeout Takeover (takeoverTimeoutMs o)] else [])
    else (ACCEPTED_STATES, []) in
  (changed ++ timers ++
    (if negb (includes ACCEPTED_STATES state) then [Emit (DISCONNECTED state)] else []))%list.

(** [e?.message]. *)
Definition message (e : JsError) : string :=
  match e with
  | TypeError msg | Error msg => msg
  | ReferenceError ident => ident +:+ " is not defined"
  end.

(** The callback of the timer, lines 404-408: the takeover round trip with
    its [.catch]. *)
Definition takeover (evaluate : Outcome Val) : M unit :=
  ((Call EvaluateTakeover ::
     match evaluate with
     | Rejected e => [ConsoleLog ("WA conflict evaluate error " +:+ message e)]
     | _ => []
     end), Ok tt).

(** Modelled from the spec: [util/Constants] is not among the sources; the
    accepted set is {connected, opening, pairing, timeout} and the state of
    a session conflict is [conflict], under the names of the constants. *)
Definition WAState : WAStateT :=
  {| CONNECTED := "CONNECTED"; OPENING := "OPENING"; PAIRING := "PAIRING";
     TIMEOUT := "TIMEOUT"; CONFLICT := "CONFLICT" |}.

End Session.

Module Commands.

Local Open Scope js_scope.

(** A chat of [window.Store.Chat.models]: its id and the truthiness of its
    [pin] property. *)
Record Chat := mkChat {
  chat_id : string;
  pin : bool
}.

(** [window.Store.Chat.get(chatId)]. *)
Definition Store_Chat_get (models : list Chat) (chatId : string) : option Chat :=
  find (fun c => String.eqb (chat_id c) chatId) models.

Definition MAX_PIN_COUNT : nat := 3.

Section Pin.
(** How [await window.Store.Cmd.pinChat(chat, pin)] settles belongs to the
    page. *)
Variable Cmd_pinChat_rejects : Cmd -> option JsError.

Definition Store_Cmd_pinChat (chat : Chat) (flag : bool) : M unit :=
  let c := Cmd_pinChat (chat_id chat) flag in
  ([StoreCmd c],
   match Cmd_pinChat_rejects c with Some e => Throw e | None => Ok tt end).

(** [pinChat], lines 803-819, the function evaluated in the page. *)
Definition pinChat (models : list Chat) (chatId : string) : M bool :=
  match Store_Chat_get models chatId with
  | None => throw (TypeError "Cannot read properties of undefined (reading 'pin')")
  | Some chat =>
      if pin chat then M_ret true
      else
        let pin_it :=
          let* _ := Store_Cmd_pinChat chat true in M_ret true in
        if (MAX_PIN_COUNT <? length models)%nat then
          match models !! (MAX_PIN_COUNT - 1)%nat with
          | Some third => if pin third then M_ret false else pin_it
          | None => throw (TypeError "Cannot read properties of undefined (reading 'pin')")
          end
        else pin_it
  end.

(** [unpinChat], lines 825-834. *)
Definition unpinChat (models : list Chat) (chatId : string) : M bool :=
  match Store_Chat_get models chatId with
  | None => throw (TypeError "Cannot read properties of undefined (reading 'pin')")
  | Some chat =>
      if negb (pin chat) then M_ret false
      else let* _ := Store_Cmd_pinChat chat false in M_ret false
  end.
End Pin.

(** The commands among the effects. *)
Definition commands (t : list Effect) : list Cmd :=
  omap (fun x => match x with StoreCmd c => Some c | _ => None end) t.

(** The store after the effects: only a command reaches it, and what a
    command does to it belongs to the page. *)
Definition store_after (run_cmd : Cmd -> list Chat -> list Chat)
  (t : list Effect) (models : list Chat) : list Chat :=
  foldl (fun ms c => run_cmd c ms) models (commands t).

(** The collection keeps its pinned chats ahead of the others. *)
Fixpoint pinned_first (models : list Chat) : bool :=
  match models with
  | [] => true
  | c :: rest =>
      if pin c then pinned_first rest else forallb (fun d => negb (pin d)) rest
  end.

Definition pinned_count (models : list Chat) : nat :=
  length (filter (fun c => pin c = true) models).

(** Two collections with three pinned chats and the chat "d@c.us" not
    pinned: one as the page orders it, one with the pinned chats anywhere. *)
Definition ordered_models : list Chat :=
  [mkChat "a@c.us" true; mkChat "b@c.us" true; mkChat "c@c.us" true;
   mkChat "d@c.us" false].

Definition unordered_models : list Chat :=
  [mkChat "d@c.us" false; mkChat "a@c.us" true; mkChat "e@c.us" false;
   mkChat "b@c.us" true; mkChat "c@c.us" true].

(** [try { return await p } catch (_) { return h }]. *)
Definition try_return_await {A} (p : Outcome A) (h : A) : Outcome A :=
  match p with
  | Resolved a => Resolved a
  | Rejected _ => Resolved h
  | Pending => Pending
  end.

(** [this.pupPage.evaluate(f, arg)]: a [TypeError] while [pupPage] is still
    [null], else the round trip of the page. *)
Definition pupPage_evaluate (pupPage : option (string -> Outcome Val)) (arg : string)
  : Outcome Val :=
  match pupPage with
  | None => Rejected (TypeError "Cannot read properties of null (reading 'evaluate')")
  | Some evaluate => evaluate arg
  end.

(** The id the number is looked up under, lines 926-931. *)
Definition numberId (number : string) : string :=
  let number := if negb (endsWith number "@c.us") then number +:+ "@c.us" else number in
  if negb (startsWith number "+") then "+" +:+ number else number.

(** [getNumberId], lines 925-939.  [endsWith] and [startsWith] are methods
    of strings: on any other value the first statement, which is outside
    the [try], throws, and the call rejects. *)
Definition getNumberId (pupPage : option (string -> Outcome Val)) (number : Val)
  : Outcome Val :=
  match number with
  | VStr number => try_return_await (pupPage_evaluate pupPage (numberId number)) VNull
  | VUndefined | VNull =>
      Rejected (TypeError "Cannot read properties of undefined (reading 'endsWith')")
  | _ => Rejected (TypeError "number.endsWith is not a function")
  end.

End Commands.

Module Dispatcher.

(** [MessageSendOptions]: the properties [sendMessage] reads from
    [options]; [extra] holds the own properties of [options.extra], none
    when it is absent. *)
Record MessageSendOptions := mkOptions {
  linkPreview : Val;
  sendAudioAsVoice : Val;
  sendVideoAsGif : Val;
  sendMediaAsSticker : Val;
  sendMediaAsDocument : Val;
  caption : Val;
  quotedMessageId : Val;
  parseVCards : Val;
  mentions : Val;
  sendSeen : Val;
  media : Val;
  extra : gmap string Val
}.

(** [options = {}]. *)
Definition no_options : MessageSendOptions :=
  mkOptions VUndefined VUndefined VUndefined VUndefined VUndefined VUndefined
    VUndefined VUndefined VUndefined VUndefined VUndefined ∅.

(** [contact.id._serialized]. *)
Definition id_serialized (contact : Val) : result Val :=
  id ← get contact "id"; get id "_serialized".

(** [contacts.map(contact => contact.id._serialized)]. *)
Definition serialized_ids (contacts : list Val) : result Val :=
  VArr <$> mapM id_serialized contacts.

(** [internalOptions], lines 538-549: the spread of [options.extra] comes
    last and wins. *)
Definition internalOptions (options : MessageSendOptions) : result (gmap string Val) :=
  mentionedJidList ←
    (if isArray (mentions options)
     then serialized_ids (items (mentions options))
     else Ok (VArr []));
  Ok (extra options ∪
      (<["linkPreview" := if truthy (linkPreview options) then VBool true else VUndefined]>
       (<["sendAudioAsVoice" := sendAudioAsVoice options]>
        (<["sendVideoAsGif" := sendVideoAsGif options]>
         (<["sendMediaAsSticker" := sendMediaAsSticker options]>
          (<["sendMediaAsDocument" := sendMediaAsDocument options]>
           (<["caption" := caption options]>
            (<["quotedMessageId" := quotedMessageId options]>
             (<["parseVCards" :=
                  match parseVCards options with
                  | VBool false => VBool false
                  | _ => VBool true
                  end]>
              {["mentionedJidList" := mentionedJidList]}))))))))).

(** The chain of lines 553-576 on [content] and [internalOptions]: the new
    [content] and the new [internalOptions]. *)
Definition resolveContent (content : Val) (options : MessageSendOptions)
  (io : gmap string Val) : result (Val * gmap string Val) :=
  if instanceOf content MessageMedia then
    Ok (VStr "", <["attachment" := content]> io)
  else if instanceOf (media options) MessageMedia then
    Ok (VStr "", <["caption" := content]> (<["attachment" := media options]> io))
  else if instanceOf content Location then
    Ok (VStr "", <["location" := content]> io)
  else if instanceOf content Contact then
    card ← id_serialized content;
    Ok (VStr "", <["contactCard" := card]> io)
  else if isArray content && (0 <? length (items content))%nat
          && instanceOf (index content 0) Contact then
    cards ← serialized_ids (items content);
    Ok (VStr "", <["contactCardList" := cards]> io)
  else if instanceOf content Buttons then
    type ← get content "type";
    io ← (if negb (is_vstr type "chat")
          then body ← get content "body"; Ok (<["attachment" := body]> io)
          else Ok io);
    Ok (VStr "", <["buttons" := content]> io)
  else if instanceOf content List then
    Ok (VStr "", <["list" := content]> io)
  else Ok (content, io).

(** [sendMessage] up to line 576: [content] and [internalOptions] as the
    sticker conversion and the round trip receive them. *)
Definition sendMessage_resolved (content : Val) (options : MessageSendOptions)
  : result (Val * gmap string Val) :=
  io ← internalOptions options;
  resolveContent content options io.

(** *** The resolution as a table

    The resolution order in the words of the specification: the variants
    in their fixed order, what selects each, and what each populates. *)
Inductive Variant :=
| PrimaryMedia
| OptionsMedia
| LocationPayload
| ContactCard
| ContactCardList
| ButtonsPayload
| ListPayload.

Definition resolution_order : list Variant :=
  [PrimaryMedia; OptionsMedia; LocationPayload; ContactCard; ContactCardList;
   ButtonsPayload; ListPayload].

Definition selects (v : Variant) (content : Val) (options : MessageSendOptions) : bool :=
  match v with
  | PrimaryMedia => instanceOf content MessageMedia
  | OptionsMedia => instanceOf (media options) MessageMedia
  | LocationPayload => instanceOf content Location
  | ContactCard => instanceOf content Contact
  | ContactCardList =>
      match content with
      | VArr (first :: _) => instanceOf first Contact
      | _ => false
      end
  | ButtonsPayload => instanceOf content Buttons
  | ListPayload => instanceOf content List
  end.

Definition populate (v : Variant) (content : Val) (options : MessageSendOptions)
  (io : gmap string Val) : result (gmap string Val) :=
  match v with
  | PrimaryMedia => Ok (<["attachment" := content]> io)
  | OptionsMedia => Ok (<["caption" := content]> (<["attachment" := media options]> io))
  | LocationPayload => Ok (<["location" := content]> io)
  | ContactCard => card ← id_serialized content; Ok (<["contactCard" := card]> io)
  | ContactCardList =>
      match content with
      | VArr contacts =>
          cards ← serialized_ids contacts; Ok (<["contactCardList" := cards]> io)
      | _ => Ok (<["contactCardList" := VUndefined]> io)
      end
  | ButtonsPayload =>
      type ← get content "type";
      body ← get content "body";
      Ok (<["buttons" := content]>
            (if is_vstr type "chat" then io else <["attachment" := body]> io))
  | ListPayload => Ok (<["list" := content]> io)
  end.

(** The fields of the internal record a variant owns. *)
Definition fields (v : Variant) : list string :=
  match v with
  | PrimaryMedia => ["attachment"]
  | OptionsMedia => ["attachment"; "caption"]
  | LocationPayload => ["location"]
  | ContactCard => ["contactCard"]
  | ContactCardList => ["contactCardList"]
  | ButtonsPayload => ["attachment"; "buttons"]
  | ListPayload => ["list"]
  end.

(** First match wins. *)
Definition resolve_first_match (content : Val) (options : MessageSendOptions)
  (io : gmap string Val) : result (Val * gmap string Val) :=
  match find (fun v => selects v content options) resolution_order with
  | Some v => io' ← populate v content options io; Ok (VStr "", io')
  | None => Ok (content, io)
  end.

(** [v] is a contact entity whose serialized identity is [sid]. *)
Definition is_contact (v sid : Val) : Prop :=
  instanceOf v Contact = true /\ id_serialized v = Ok sid.

(** A contact entity with the serialized identity [sid] and nothing else. *)
Definition contact (sid : string) : Val :=
  VObj Contact {[ "id" := VObj Object {[ "_serialized" := VStr sid ]} ]}.

(** A media attachment. *)
Definition picture : Val :=
  VObj MessageMedia
    (<["mimetype" := VStr "image/png"]> {[ "data" := VStr "iVBORw0KGgo=" ]}).

End Dispatcher.

Module Text.

(** [s.includes(t)]: [t] starts at some position of [s]. *)
Fixpoint str_includes (s t : string) : bool :=
  String.prefix t s
  || match s with
     | EmptyString => false
     | String _ s' => str_includes s' t
     end.

(** [s.slice(n)]. *)
Fixpoint str_drop (n : nat) (s : string) : string :=
  match n, s with
  | O, _ => s
  | S _, EmptyString => EmptyString
  | S n', String _ s' => str_drop n' s'
  end.

(** [s.replace(pat, rep)] for a string pattern and a replacement without
    [$]: the leftmost occurrence of [pat] is replaced, the others stay. *)
Fixpoint replace (s pat rep : string) : string :=
  if String.prefix pat s then rep +:+ str_drop (String.length pat) s
  else match s with
       | EmptyString => EmptyString
       | String c s' => String c (replace s' pat rep)
       end.

(** The characters of a string. *)
Fixpoint chars (s : string) : list Ascii.ascii :=
  match s with
  | EmptyString => []
  | String c s' => c :: chars s'
  end.

(** How often the character [c] occurs in [s]. *)
Fixpoint count_char (c : Ascii.ascii) (s : string) : nat :=
  match s with
  | EmptyString => 0
  | String a s' => (if Ascii.eqb a c then 1 else 0) + count_char c s'
  end.

End Text.

Module Queries.

Import Text.

(** The id [isRegisteredUser] sends, lines 900-905: the statements are
    those of [getNumberId]. *)
Definition registeredUserId (id : string) : string :=
  let id := if negb (endsWith id "@c.us") then id +:+ "@c.us" else id in
  if negb (startsWith id "+") then "+" +:+ id else id.

(** [isRegisteredUser], lines 899-917: the round trip is awaited outside
    any [try]. *)
Definition isRegisteredUser (pupPage : option (string -> Outcome Val)) (id : string)
  : Outcome Val :=
  Commands.pupPage_evaluate pupPage (registeredUserId id).

(** The id [getFormattedNumber] sends, lines 947-948. *)
Definition formattedNumberId (number : string) : string :=
  let number :=
    if negb (endsWith number "@s.whatsapp.net")
    then replace number "c.us" "s.whatsapp.net" else number in
  if negb (str_includes number "@s.whatsapp.net")
  then number +:+ "@s.whatsapp.net" else number.

(** [getFormattedNumber], lines 946-953. *)
Definition getFormattedNumber (pupPage : option (string -> Outcome Val))
  (number : string) : Outcome Val :=
  Commands.pupPage_evaluate pupPage (formattedNumberId number).

(** The id [getCountryCode] sends, line 961. *)
Definition countryCodeId (number : string) : string :=
  replace (replace (replace number " " "") "+" "") "@c.us" "".

(** [getCountryCode], lines 960-966. *)
Definition getCountryCode (pupPage : option (string -> Outcome Val))
  (number : string) : Outcome Val :=
  Commands.pupPage_evaluate pupPage (countryCodeId number).

End Queries.

Module Traces.

(** The tokens of the [qr] events among the effects. *)
Definition qr_tokens (t : list Effect) : list string :=
  omap (fun x => match x with Emit (QR_RECEIVED qr) => Some qr | _ => None end) t.

(** The timers set among the effects. *)
Definition timers (t : list Effect) : list (Timer * Val) :=
  omap (fun x => match x with SetTimeout cb ms => Some (cb, ms) | _ => None end) t.

(** The invocations of functions of [fs] among the effects. *)
Definition invocations (t : list Effect) : list FsFunction :=
  omap (fun x => match x with Invoke f _ _ => Some f | _ => None end) t.

(** A computation hands on the error of a rejected call: the call is its
    last effect and its error is what the computation throws. *)
Definition propagates (w : Session.World) {A} (m : M A) : Prop :=
  forall s e,
    Call s ∈ effects m -> Session.rejects w s = Some e ->
    returned m = Throw e /\ last (effects m) = Some (Call s).

(** A page that cannot be reached: the navigation rejects. *)
Definition offline : Session.World :=
  {| Session.rejects := fun s =>
       match s with
       | Goto => Some (Error "net::ERR_INTERNET_DISCONNECTED")
       | _ => None
       end;
     Session.race := Session.IntroImageFirst; Session.MD_BACKEND := true;
     Session.localStorage := ∅; Session.globalThis := ∅ |}.

(** A page on which neither selector shows up in time. *)
Definition stalled : Session.World :=
  {| Session.rejects := fun _ => None;
     Session.race := Session.RaceError (Error "waiting for selector failed: timeout exceeded");
     Session.MD_BACKEND := true;
     Session.localStorage := ∅; Session.globalThis := ∅ |}.

(** The options of a client that authenticates with a JSON session. *)
Definition legacy_options : Session.ClientOptions :=
  {| Session.authTimeoutMs := 0; Session.qrMaxRetries := 0;
     Session.takeoverOnConflict := VBool false; Session.takeoverTimeoutMs := VNum 0;
     Session.useDeprecatedSessionAuth := true;
     Session.session := VObj Object {[ "WABrowserId" := VStr "x" ]};
     Session.bypassCSP := false; Session.browserWSEndpoint := VUndefined |}.

End Traces.

Module Groups.

(** What a command rejects with: [createGroup] throws a string, the calls
    it makes throw errors. *)
Inductive Thrown :=
| ThrownString (s : string)
| ThrownError (e : JsError).

Inductive Settled (A : Type) :=
| Fulfilled (a : A)
| RejectedWith (reason : Thrown)
| Unsettled.
Arguments Fulfilled {A} a.
Arguments RejectedWith {A} reason.
Arguments Unsettled {A}.

(** The answer of [sendCreateGroup]: the id of the group and, per
    participant, an object with the participant's id as its one key and
    the status code under it. *)
Record CreateRes := mkCreateRes {
  res_gid : Val;
  res_participants : list (string * Z)
}.

(** What [createGroup] resolves to. *)
Record CreateGroupResult := mkCreateGroupResult {
  gid : Val;
  missingParticipants : gmap string Z
}.

(** The [reduce] of lines 992-997, from [{}]. *)
Definition missing (participants : list (string * Z)) : gmap string Z :=
  foldl (fun missing c =>
           let id := fst c in
           let statusCode := snd c in
           if negb (statusCode =? 200)%Z then <[id := statusCode]> missing else missing)
        ∅ participants.

(** The participants as they are sent, lines 981-983. *)
Definition participantIds (participants : Val) : result Val :=
  if forallb (fun c => instanceOf c Contact) (items participants)
  then Dispatcher.serialized_ids (items participants)
  else Ok participants.

(** [createGroup], lines 976-1000: the round trips made, each with the
    name and the participants sent, and how the call settles. *)
Definition createGroup (pupPage : option (string -> Val -> Outcome CreateRes))
  (name : string) (participants : Val)
  : list (string * Val) * Settled CreateGroupResult :=
  if negb (isArray participants) || (length (items participants) =? 0)%nat then
    ([], RejectedWith
           (ThrownString "You need to add at least one other participant to the group"))
  else
    match participantIds participants with
    | Throw e => ([], RejectedWith (ThrownError e))
    | Ok ids =>
        match pupPage with
        | None =>
            ([], RejectedWith
                   (ThrownError (TypeError "Cannot read properties of null (reading 'evaluate')")))
        | Some evaluate =>
            ([(name, ids)],
             match evaluate name ids with
             | Resolved createRes =>
                 Fulfilled {| gid := res_gid createRes;
                              missingParticipants := missing (res_participants createRes) |}
             | Rejected e => RejectedWith (ThrownError e)
             | Pending => Unsettled
             end)
        end
    end.

End Groups.

Module Sticker.

(** The two conversions of lines 578-594. *)
Inductive Converter :=
| toStickerData
| formatToWebpSticker.

(** Which conversion the attachment goes through, lines 578-579 and 587:
    none unless [sendMediaAsSticker] and [attachment] are both truthy, and
    then by [attachment.mimetype.startsWith('image')]. *)
Definition converter (internalOptions : gmap string Val) : result (option Converter) :=
  let sendMediaAsSticker := default VUndefined (internalOptions !! "sendMediaAsSticker") in
  let attachment := default VUndefined (internalOptions !! "attachment") in
  if truthy sendMediaAsSticker && truthy attachment then
    mimetype ← get attachment "mimetype";
    match mimetype with
    | VStr s => Ok (Some (if startsWith s "image" then toStickerData else formatToWebpSticker))
    | VUndefined | VNull =>
        Throw (TypeError "Cannot read properties of undefined (reading 'startsWith')")
    | _ => Throw (TypeError "internalOptions.attachment.mimetype.startsWith is not a function")
    end
  else Ok None.

(** [sendMessage] up to line 594: the content and the options resolved,
    and the conversion chosen for the attachment. *)
Definition sendMessage_converter (content : Val) (options : Dispatcher.MessageSendOptions)
  : result (option Converter) :=
  resolved ← Dispatcher.sendMessage_resolved content options;
  converter (snd resolved).

End Sticker.

Module Samples.

Import Dispatcher.

(** [{caption: 'ignored', media: picture}]. *)
Definition captioned_media : MessageSendOptions :=
  mkOptions VUndefined VUndefined VUndefined VUndefined VUndefined
    (VStr "ignored") VUndefined VUndefined VUndefined VUndefined picture ∅.

(** [{sendMediaAsSticker: true}]. *)
Definition as_sticker : MessageSendOptions :=
  mkOptions VUndefined VUndefined VUndefined (VBool true) VUndefined
    VUndefined VUndefined VUndefined VUndefined VUndefined VUndefined ∅.

(** [{mentions: ['4915730000000@c.us']}]: an id where a contact entity is
    expected. *)
Definition mentions_by_id : MessageSendOptions :=
  mkOptions VUndefined VUndefined VUndefined VUndefined VUndefined
    VUndefined VUndefined VUndefined (VArr [VStr "4915730000000@c.us"])
    VUndefined VUndefined ∅.

(** [{mentions: [contact]}]. *)
Definition mentions_contact : MessageSendOptions :=
  mkOptions VUndefined VUndefined VUndefined VUndefined VUndefined
    VUndefined VUndefined VUndefined (VArr [contact "4915730000000@c.us"])
    VUndefined VUndefined ∅.

(** [{mentions: [contact], extra: {mentionedJidList: ['0@c.us']}}]. *)
Definition mentions_overridden : MessageSendOptions :=
  mkOptions VUndefined VUndefined VUndefined VUndefined VUndefined
    VUndefined VUndefined VUndefined (VArr [contact "4915730000000@c.us"])
    VUndefined VUndefined {[ "mentionedJidList" := VArr [VStr "0@c.us"] ]}.

(** [{sendMediaAsSticker: true, extra: {sendMediaAsSticker: false}}]. *)
Definition sticker_overridden : MessageSendOptions :=
  mkOptions VUndefined VUndefined VUndefined (VBool true) VUndefined
    VUndefined VUndefined VUndefined VUndefined VUndefined VUndefined
    {[ "sendMediaAsSticker" := VBool false ]}.

End Samples.

(** * Properties *)

(** ** Strings and the effect monad *)

Lemma eqb_false_neq (s t : string) : String.eqb s t = false <-> s ≠ t.
Proof. apply String.eqb_neq. Qed.

Lemma is_str_true (o : option string) (t : string) : is_str o t = true <-> o = Some t.
Proof.
  destruct o as [s|]; simpl.
  - rewrite String.eqb_eq. split; congruence.
  - split; discriminate.
Qed.

Lemma is_str_false (o : option string) (t : string) : is_str o t = false <-> o ≠ Some t.
Proof.
  rewrite <- is_str_true. destruct (is_str o t); split; congruence.
Qed.

(** Membership in a list given by its elements. *)
Ltac list_mem :=
  unfold not; rewrite ?list_elem_of_In; simpl; intuition (try discriminate).

Lemma effects_bind {A B} (m : M A) (f : A -> M B) :
  effects (M_bind m f) =
  (effects m ++ match returned m with Ok a => effects (f a) | Throw _ => [] end)%list.
Proof.
  destruct m as [t [a|e]]; simpl.
  - destruct (f a); reflexivity.
  - symmetry. apply app_nil_r.
Qed.

Lemma returned_bind {A B} (m : M A) (f : A -> M B) :
  returned (M_bind m f) =
  match returned m with Ok a => returned (f a) | Throw e => Throw e end.
Proof.
  destruct m as [t [a|e]]; simpl; [destruct (f a)|]; reflexivity.
Qed.

(** ** The event bridge *)

Section BridgeFacts.
Import EventBridge.

Lemma onAddMessageEvent_not_new (msg : RawMsg) :
  isNewMsg msg = false -> onAddMessageEvent msg = [].
Proof. intros H. unfold onAddMessageEvent. rewrite H. reflexivity. Qed.

Lemma onAddMessageEvent_group (msg : RawMsg) :
  isNewMsg msg = true -> msg_type msg = "gp2" ->
  onAddMessageEvent msg =
    [ if is_str (msg_subtype msg) "add" || is_str (msg_subtype msg) "invite"
      then GROUP_JOIN (mkGroupNotification msg)
      else if is_str (msg_subtype msg) "remove" || is_str (msg_subtype msg) "leave"
      then GROUP_LEAVE (mkGroupNotification msg)
      else GROUP_UPDATE (mkGroupNotification msg) ].
Proof.
  intros Hnew Hty. unfold onAddMessageEvent. rewrite Hnew, Hty. simpl.
  destruct (_ || _); [|destruct (_ || _)]; reflexivity.
Qed.

Lemma onAddMessageEvent_message (msg : RawMsg) :
  isNewMsg msg = true -> msg_type msg ≠ "gp2" ->
  onAddMessageEvent msg =
    MESSAGE_CREATE (mkMessage msg) ::
      (if key_fromMe (msg_id msg) then [] else [MESSAGE_RECEIVED (mkMessage msg)]).
Proof.
  intros Hnew Hty. unfold onAddMessageEvent. rewrite Hnew.
  apply String.eqb_neq in Hty. rewrite Hty. reflexivity.
Qed.

Example received_message_events :
  event_name <$> onAddMessageEvent received = ["message_create"; "message"].
Proof. reflexivity. Qed.

Example invitation_events :
  onAddMessageEvent invited = [GROUP_JOIN (mkGroupNotification invited)].
Proof. reflexivity. Qed.

(** C1. A message-added mutation: nothing is emitted for a record that is
    not flagged new (neither by the callback nor through the subscription of
    the store); a new record of type [gp2] emits exactly one event, which is
    [group_join] on the subtypes add and invite, [group_leave] on remove
    and leave and [group_update] on every other subtype, and so neither
    [message] nor [message_create]; every other new record emits
    [message_create], followed by [message] for the same record exactly
    when the record is not from the client's own account. *)
Theorem onAddMessageEvent_classification (msg : RawMsg) :
  let evs := onAddMessageEvent msg in
  let names := event_name <$> evs in
  (isNewMsg msg = false -> evs = []) /\
  (forall getMessageModel last_message,
     isNewMsg msg = false ->
     deliver getMessageModel last_message (MsgAdd msg) = (last_message, [])) /\
  (isNewMsg msg = true -> msg_type msg = "gp2" ->
     (msg_subtype msg = Some "add" \/ msg_subtype msg = Some "invite" ->
        evs = [GROUP_JOIN (mkGroupNotification msg)]) /\
     (msg_subtype msg = Some "remove" \/ msg_subtype msg = Some "leave" ->
        evs = [GROUP_LEAVE (mkGroupNotification msg)]) /\
     (msg_subtype msg ≠ Some "add" -> msg_subtype msg ≠ Some "invite" ->
      msg_subtype msg ≠ Some "remove" -> msg_subtype msg ≠ Some "leave" ->
        evs = [GROUP_UPDATE (mkGroupNotification msg)]) /\
     (exists name, names = [name] /\
        name ∈ ["group_join"; "group_leave"; "group_update"]) /\
     ("message" ∉ names) /\ ("message_create" ∉ names)) /\
  (isNewMsg msg = true -> msg_type msg ≠ "gp2" ->
     evs = MESSAGE_CREATE (mkMessage msg) ::
             (if key_fromMe (msg_id msg) then [] else [MESSAGE_RECEIVED (mkMessage msg)]) /\
     names = "message_create" :: (if key_fromMe (msg_id msg) then [] else ["message"]) /\
     ("message" ∈ names <-> key_fromMe (msg_id msg) = false)).
Proof.
  intros evs names. subst names evs.
  split; [apply onAddMessageEvent_not_new|].
  split; [intros gm lm Hnew; simpl; rewrite Hnew; reflexivity|].
  split.
  - intros Hnew Hty. rewrite (onAddMessageEvent_group msg Hnew Hty).
    split; [|split; [|split]].
    + intros Hsub.
      assert ((is_str (msg_subtype msg) "add" || is_str (msg_subtype msg) "invite") = true)
        as ->; [|reflexivity].
      apply orb_true_iff. rewrite !is_str_true. exact Hsub.
    + intros Hsub.
      assert ((is_str (msg_subtype msg) "add" || is_str (msg_subtype msg) "invite") = false)
        as ->.
      { apply orb_false_iff. rewrite !is_str_false.
        destruct Hsub as [-> | ->]; split; discriminate. }
      assert ((is_str (msg_subtype msg) "remove" || is_str (msg_subtype msg) "leave") = true)
        as ->; [|reflexivity].
      apply orb_true_iff. rewrite !is_str_true. exact Hsub.
    + intros Ha Hi Hr Hl.
      apply is_str_false in Ha, Hi, Hr, Hl. rewrite Ha, Hi, Hr, Hl. reflexivity.
    + destruct (_ || _); [|destruct (_ || _)];
        (split; [eexists; split; [reflexivity|]|split]); list_mem.
  - intros Hnew Hty. rewrite (onAddMessageEvent_message msg Hnew Hty).
    split; [reflexivity|].
    destruct (key_fromMe (msg_id msg)); (split; [reflexivity|]); list_mem.
Qed.

(** C2. A generic change overwrites the last-seen slot with the record
    exactly when the type of the record is not [revoked], and leaves the
    slot as it was otherwise; a type change to [revoked] emits exactly one
    [message_revoke_everyone] with the record as it is now, and with the
    cached record exactly when the slot is filled with a record of the same
    [id.id]; otherwise the second argument is absent. *)
Theorem revoke_everyone_from_cache (last_message : option RawMsg) (msg : RawMsg) :
  (msg_type msg ≠ "revoked" -> onChangeMessageEvent last_message msg = Some msg) /\
  (msg_type msg = "revoked" -> onChangeMessageEvent last_message msg = last_message) /\
  (msg_type msg = "revoked" ->
     exists revoked_msg,
       onChangeMessageTypeEvent last_message msg =
         [MESSAGE_REVOKED_EVERYONE (mkMessage msg) revoked_msg] /\
       (forall last,
          revoked_msg = Some (mkMessage last) <->
          last_message = Some last /\ key_id (msg_id msg) = key_id (msg_id last)) /\
       (revoked_msg = None <->
        forall last, last_message = Some last ->
                     key_id (msg_id msg) ≠ key_id (msg_id last))).
Proof.
  unfold onChangeMessageEvent, onChangeMessageTypeEvent.
  split; [|split].
  - intros Hty. apply String.eqb_neq in Hty. rewrite Hty. reflexivity.
  - intros ->. reflexivity.
  - intros ->. simpl. eexists. split; [reflexivity|].
    destruct last_message as [cached|].
    + destruct (String.eqb_spec (key_id (msg_id msg)) (key_id (msg_id cached)))
        as [Heq|Hne]; split.
      * intros last; split.
        -- intros [= <-]. split; [reflexivity | exact Heq].
        -- intros [[= ->] _]. reflexivity.
      * split; [discriminate|]. intros H. destruct (H cached eq_refl Heq).
      * intros last; split; [discriminate|]. intros [[= ->] H]. contradiction.
      * split; [|reflexivity]. intros _ last [= <-]. exact Hne.
    + split.
      * intros last; split; [discriminate|]. intros [[=] _].
      * split; [|reflexivity]. intros _ last [=].
Qed.

Example revoke_recovers_body :
  snd (run (fun m => m) None [MsgChange received; MsgChange revoked; MsgChangeType revoked])
  = [MESSAGE_REVOKED_EVERYONE (mkMessage revoked) (Some (mkMessage received))].
Proof. reflexivity. Qed.

Example revoke_unseen :
  snd (run (fun m => m) None [MsgChangeType revoked])
  = [MESSAGE_REVOKED_EVERYONE (mkMessage revoked) None].
Proof. reflexivity. Qed.

(** The pair of notifications of one revocation, in the order the page
    delivers them: the record cached by the change comes back as the second
    argument of the event. *)
Lemma change_then_revoke getMessageModel (before after : RawMsg) :
  msg_type (getMessageModel before) ≠ "revoked" ->
  msg_type (getMessageModel after) = "revoked" ->
  key_id (msg_id (getMessageModel after)) = key_id (msg_id (getMessageModel before)) ->
  snd (run getMessageModel None [MsgChange before; MsgChangeType after]) =
    [MESSAGE_REVOKED_EVERYONE (mkMessage (getMessageModel after))
       (Some (mkMessage (getMessageModel before)))].
Proof.
  intros Hb Ha Hid. simpl. unfold onChangeMessageEvent, onChangeMessageTypeEvent.
  apply String.eqb_neq in Hb. rewrite Hb, Ha. simpl.
  apply String.eqb_eq in Hid. rewrite Hid. reflexivity.
Qed.

End BridgeFacts.

(** ** The QR handshake *)

Section HandshakeFacts.
Import Handshake.

Lemma qrChanged_limited (N n : Z) (qr : string) :
  (0 < N)%Z ->
  qrChanged N n qr =
    ((n + 1)%Z,
     if (n + 1 >? N)%Z
     then [Emit (QR_RECEIVED qr); Emit (DISCONNECTED "Max qrcode retries reached");
           Call BrowserClose]
     else [Emit (QR_RECEIVED qr)]).
Proof.
  intros HN. unfold qrChanged.
  assert ((N >? 0)%Z = true) as -> by lia.
  destruct (n + 1 >? N)%Z; reflexivity.
Qed.

Lemma qrChanged_unlimited (N n : Z) (qr : string) :
  (N <= 0)%Z -> qrChanged N n qr = (n, [Emit (QR_RECEIVED qr)]).
Proof.
  intros HN. unfold qrChanged.
  assert ((N >? 0)%Z = false) as -> by lia. reflexivity.
Qed.

Example third_token_of_two :
  snd (qr_flow 2 ["1@a"; "1@b"; "1@c"]) =
    [ [Emit (QR_RECEIVED "1@a")];
      [Emit (QR_RECEIVED "1@b")];
      [Emit (QR_RECEIVED "1@c"); Emit (DISCONNECTED "Max qrcode retries reached");
       Call BrowserClose] ].
Proof. reflexivity. Qed.

(** With a limit, the counter after the calls and the effects of the call
    at each position, from any value of the counter. *)
Lemma qr_calls_limited (N : Z) (tokens : list string) : forall (n : Z),
  (0 < N)%Z ->
  fst (qr_calls N n tokens) = (n + Z.of_nat (length tokens))%Z /\
  length (snd (qr_calls N n tokens)) = length tokens /\
  forall (k : nat) (t : list Effect),
    snd (qr_calls N n tokens) !! k = Some t ->
    ((n + Z.of_nat k + 1 <= N)%Z -> disconnects t = [] /\ destroys t = 0) /\
    ((N < n + Z.of_nat k + 1)%Z ->
       disconnects t = ["Max qrcode retries reached"] /\ destroys t = 1).
Proof.
  induction tokens as [|qr rest IH]; intros n HN.
  - simpl. repeat split; try lia; discriminate.
  - simpl. rewrite qrChanged_limited by assumption.
    specialize (IH (n + 1)%Z HN).
    destruct (qr_calls N (n + 1) rest) as [n' ts] eqn:E. simpl in *.
    destruct IH as (Hn & Hlen & Hk). split; [lia|]. split; [lia|].
    intros [|k] t Hlook.
    + simpl in Hlook. injection Hlook as <-.
      split; intros Hcmp.
      * assert ((n + 1 >? N)%Z = false) as -> by lia. split; reflexivity.
      * assert ((n + 1 >? N)%Z = true) as -> by lia. split; reflexivity.
    + simpl in Hlook. destruct (Hk k t Hlook) as [Hlow Hhigh].
      split; intros Hcmp; [apply Hlow | apply Hhigh]; lia.
Qed.

(** Without a limit the counter stays where it is and no call does more
    than emit the token. *)
Lemma qr_calls_unlimited (N : Z) (tokens : list string) : forall (n : Z),
  (N <= 0)%Z ->
  fst (qr_calls N n tokens) = n /\
  Forall (fun t => disconnects t = [] /\ destroys t = 0) (snd (qr_calls N n tokens)).
Proof.
  induction tokens as [|qr rest IH]; intros n HN.
  - simpl. split; [reflexivity | constructor].
  - simpl. rewrite qrChanged_unlimited by assumption.
    specialize (IH n HN).
    destruct (qr_calls N n rest) as [n' ts]. simpl in *.
    destruct IH as [Hn Hall]. split; [exact Hn|].
    constructor; [split; reflexivity | exact Hall].
Qed.

(** C3, as the code has it.  With [qrMaxRetries = N > 0] the counter goes
    up by one on every call of the callback, the calls up to the N-th
    disconnect nothing, and the (N+1)-th call (like every later one) emits
    exactly one [disconnected] event, with the reason "Max qrcode retries
    reached", and destroys the session once.  With [qrMaxRetries <= 0] the
    counter is never incremented and no call disconnects or destroys. *)
Theorem qr_retry_limit (N : Z) (tokens : list string) :
  let count := fst (qr_flow N tokens) in
  let calls := snd (qr_flow N tokens) in
  ((0 < N)%Z ->
     count = Z.of_nat (length tokens) /\
     (forall (k : nat) (t : list Effect),
        calls !! k = Some t ->
        ((Z.of_nat k < N)%Z -> disconnects t = [] /\ destroys t = 0) /\
        ((Z.of_nat k >= N)%Z ->
           disconnects t = ["Max qrcode retries reached"] /\ destroys t = 1)) /\
     (Z.to_nat N < length tokens ->
        exists t, calls !! Z.to_nat N = Some t /\
                  disconnects t = ["Max qrcode retries reached"] /\ destroys t = 1)) /\
  ((N <= 0)%Z ->
     count = 0%Z /\
     Forall (fun t => disconnects t = [] /\ destroys t = 0) calls).
Proof.
  intros count calls. subst count calls. unfold qr_flow. split.
  - intros HN. destruct (qr_calls_limited N tokens 0%Z HN) as (Hn & Hlen & Hk).
    split; [lia|]. split.
    + intros k t Hlook. destruct (Hk k t Hlook) as [Hlow Hhigh].
      split; intros Hcmp; [apply Hlow | apply Hhigh]; lia.
    + intros Hlt.
      destruct (lookup_lt_is_Some_2 (snd (qr_calls N 0 tokens)) (Z.to_nat N))
        as [t Ht]; [lia|].
      exists t. split; [exact Ht|]. apply (Hk _ _ Ht). lia.
  - intros HN. apply (qr_calls_unlimited N tokens 0%Z HN).
Qed.

Lemma qr_retry_limit_witness :
  (0 < 2)%Z /\
  exists t, snd (qr_flow 2 ["1@a"; "1@b"; "1@c"]) !! 2 = Some t /\
            disconnects t = ["Max qrcode retries reached"] /\ destroys t = 1.
Proof.
  split; [lia|].
  apply (proj1 (qr_retry_limit 2 ["1@a"; "1@b"; "1@c"])); [lia | simpl; lia].
Defined.

(** The claim fails as it is worded: without a limit the callback leaves
    the counter at zero, and with a limit the event of the (N+1)-th call
    carries another reason than "max retries reached". *)
Lemma qr_counter_and_reason_counterexample :
  fst (qr_flow 0 ["1@a"]) ≠ 1%Z /\
  exists t, snd (qr_flow 1 ["1@a"; "1@b"]) !! 1 = Some t /\
            disconnects t ≠ ["max retries reached"].
Proof.
  split; [discriminate|].
  eexists. split; [reflexivity|]. discriminate.
Qed.

End HandshakeFacts.

(** ** The session *)

Section SessionFacts.
Import Session.

Lemma always_bind {A B} (P : Effect -> Prop) (m : M A) (f : A -> M B) :
  always P m -> (forall a, returned m = Ok a -> always P (f a)) ->
  always P (M_bind m f).
Proof.
  unfold always. intros Hm Hf. rewrite effects_bind. apply Forall_app. split; [exact Hm|].
  destruct (returned m); [apply Hf; reflexivity | constructor].
Qed.

Lemma always_ret {A} (P : Effect -> Prop) (a : A) : always P (M_ret a).
Proof. constructor. Qed.

Lemma always_throw {A} (P : Effect -> Prop) (e : JsError) : always P (@throw A e).
Proof. constructor. Qed.

Lemma always_call (P : Effect -> Prop) (w : World) (s : Step) :
  P (Call s) -> always P (call w s).
Proof. intros H. repeat constructor. exact H. Qed.

Lemma always_emit (P : Effect -> Prop) (e : Event) : P (Emit e) -> always P (emit e).
Proof. intros H. repeat constructor. exact H. Qed.

Lemma always_if {A} (P : Effect -> Prop) (b : bool) (m1 m2 : M A) :
  always P m1 -> always P m2 -> always P (if b then m1 else m2).
Proof. destruct b; auto. Qed.

Lemma always_expose_all (P : Effect -> Prop) (w : World) (names : list string) :
  (forall s, P (Call s)) -> always P (expose_all w names).
Proof.
  intros H. induction names as [|name rest IH]; cbn [expose_all].
  - apply always_ret.
  - apply always_bind; [apply always_call, H | intros _ _; exact IH].
Qed.

Lemma throws_bind {A B} (m : M A) (f : A -> M B) :
  (forall a, throws (f a)) -> throws (M_bind m f).
Proof.
  unfold throws. intros Hf. rewrite returned_bind.
  destruct (returned m) as [a|e]; [apply Hf | eauto].
Qed.

Lemma throws_bind_l {A B} (m : M A) (f : A -> M B) :
  throws m -> throws (M_bind m f).
Proof.
  unfold throws. intros [e He]. rewrite returned_bind, He. eauto.
Qed.

Create HintDb js.
#[local] Hint Resolve always_ret always_throw always_call always_emit always_if
  always_expose_all : js.

(** The identifier passed to [emit] at line 456 has no declaration in the
    file. *)
Lemma loggedAndTimeouted_is_free : "loggedAndTimeouted" ∉ declared_at_ready.
Proof.
  unfold declared_at_ready. rewrite list_elem_of_In. simpl. intuition discriminate.
Qed.

Lemma free_identifier_returned (w : World) (x : string) (v : Val) :
  returned (free_identifier w x) = Ok v -> globalThis w !! x = Some v.
Proof.
  unfold free_identifier. destruct (globalThis w !! x); simpl; congruence.
Qed.

Ltac always_step Hcall Hauth :=
  first
    [ apply always_bind; [|intros ? ?]
    | apply always_if
    | apply always_call, Hcall
    | apply always_emit, Hauth
    | apply always_ret
    | apply always_throw
    | apply always_expose_all, Hcall ].

(** [initialize] has only effects satisfying [P] when every call and the
    [authenticated] event do, and the [ready] event with the value of the
    free identifier does. *)
Lemma initialize_always (P : Effect -> Prop) o w credentials :
  (forall s, P (Call s)) ->
  (forall v, P (Emit (AUTHENTICATED v))) ->
  (forall v, globalThis w !! "loggedAndTimeouted" = Some v -> P (Emit (READY [v]))) ->
  always P (initialize o w credentials).
Proof.
  intros Hcall Hauth Hready. unfold initialize.
  repeat always_step Hcall Hauth.
  - destruct (race w); auto with js.
  - unfold free_identifier.
    destruct (globalThis w !! "loggedAndTimeouted"); auto with js.
  - apply always_emit, Hready, free_identifier_returned. assumption.
Qed.

Lemma initialize_throws o w credentials :
  globalThis w !! "loggedAndTimeouted" = None ->
  throws (initialize o w credentials).
Proof.
  intros Hfree. unfold initialize.
  repeat lazymatch goal with
         | |- throws (M_bind (free_identifier _ _) _) => fail
         | |- _ => apply throws_bind; intros ?
         end.
  apply throws_bind_l. unfold free_identifier. rewrite Hfree.
  eexists. reflexivity.
Qed.

(** C4, on the code.  No run of [initialize] emits [ready] without a
    payload: the event is emitted with the value of [loggedAndTimeouted],
    an identifier the file does not declare.  Where the global object does
    not bind it either, [initialize] throws and [ready] is not emitted at
    all, also when the handshake, the store and the callbacks all went
    through. *)
Theorem initialize_ready_event o w credentials :
  ("loggedAndTimeouted" ∉ declared_at_ready) /\
  (Emit (READY []) ∉ effects (initialize o w credentials)) /\
  (globalThis w !! "loggedAndTimeouted" = None ->
     throws (initialize o w credentials) /\
     forall args, Emit (READY args) ∉ effects (initialize o w credentials)) /\
  (wired (effects (initialize default_options cooperative VUndefined)) = true /\
   returned (initialize default_options cooperative VUndefined)
     = Throw (ReferenceError "loggedAndTimeouted")).
Proof.
  split; [apply loggedAndTimeouted_is_free|].
  split; [|split].
  - intros Hin.
    pose proof (initialize_always (fun x => x ≠ Emit (READY [])) o w credentials) as H.
    unfold always in H. rewrite Forall_forall in H.
    apply (H ltac:(discriminate) ltac:(discriminate) ltac:(discriminate) _ Hin).
    reflexivity.
  - intros Hfree. split; [apply initialize_throws, Hfree|].
    intros args Hin.
    pose proof (initialize_always (fun x => forall a, x ≠ Emit (READY a)) o w credentials) as H.
    unfold always in H. rewrite Forall_forall in H.
    apply (H ltac:(discriminate) ltac:(discriminate)
             ltac:(intros v Hv; congruence) _ Hin args).
    reflexivity.
  - split; vm_compute; reflexivity.
Qed.

(** C5, on the code.  [logout] issues the remote logout command first and
    the removal second, but the removal receives the session directory as
    its receiver and the options object [{recursive: true}] as its path:
    no function of [fs] is handed the directory as the path to remove. *)
Theorem logout_removal_arguments fs_apply w has_rmSync (dir : string) :
  dir ≠ "" ->
  rejects w EvaluateLogout = None ->
  let recursive := VObj Object {[ "recursive" := VBool true ]} in
  effects (logout fs_apply w has_rmSync (VStr dir)) =
    [Call EvaluateLogout;
     Invoke (if has_rmSync then rmSync else rmdirSync) (VStr dir) [recursive]] /\
  omap path_argument (effects (logout fs_apply w has_rmSync (VStr dir))) = [recursive] /\
  forall x, x ∈ effects (logout fs_apply w has_rmSync (VStr dir)) ->
            path_argument x ≠ Some (VStr dir).
Proof.
  intros Hdir Hok recursive.
  assert (effects (logout fs_apply w has_rmSync (VStr dir)) =
          [Call EvaluateLogout;
           Invoke (if has_rmSync then rmSync else rmdirSync) (VStr dir) [recursive]]) as E.
  { unfold logout. rewrite effects_bind. unfold call at 1 2. simpl. rewrite Hok.
    apply String.eqb_neq in Hdir. rewrite Hdir. reflexivity. }
  rewrite E. split; [reflexivity|]. split; [reflexivity|].
  intros x Hx. apply list_elem_of_In in Hx. simpl in Hx.
  destruct Hx as [<- | [<- | []]]; simpl; discriminate.
Qed.

Lemma logout_removal_arguments_witness :
  omap path_argument
    (effects (logout (fun _ _ _ => Ok VUndefined) cooperative true
                (VStr "/srv/bot/WWebJS/session")))
  = [VObj Object {[ "recursive" := VBool true ]}].
Proof.
  apply (logout_removal_arguments (fun _ _ _ => Ok VUndefined) cooperative true
           "/srv/bot/WWebJS/session"); [discriminate | reflexivity].
Defined.

Lemma includes_elem_of (l : list string) (s : string) : includes l s = true <-> s ∈ l.
Proof.
  unfold includes. rewrite existsb_exists, list_elem_of_In. split.
  - intros (x & Hx & Heq). apply String.eqb_eq in Heq. subst. exact Hx.
  - intros Hin. exists s. split; [exact Hin | apply String.eqb_refl].
Qed.

(** The set of states that do not disconnect. *)
Lemma accepted_states (S : WAStateT) (o : ClientOptions) (state : string) :
  emitted (onAppStateChangedEvent S o state) =
    STATE_CHANGED state ::
      (if includes ([CONNECTED S; OPENING S; PAIRING S; TIMEOUT S] ++
                    (if truthy (takeoverOnConflict o) then [CONFLICT S] else []))%list state
       then [] else [DISCONNECTED state]).
Proof.
  unfold onAppStateChangedEvent.
  destruct (truthy (takeoverOnConflict o)); simpl.
  - destruct (String.eqb state (CONFLICT S)); simpl;
      repeat (destruct (String.eqb state _); simpl; try reflexivity).
  - repeat (destruct (String.eqb state _); simpl; try reflexivity).
Qed.

(** C6, as the code has it.  Every connection-state mutation emits
    [change_state]; [disconnected] follows it exactly when the state is
    outside the accepted set, which is {connected, opening, pairing,
    timeout} together with the conflict state when takeover-on-conflict is
    configured.  In that configuration the conflict state emits no
    [disconnected] and schedules the takeover after [takeoverTimeoutMs];
    the takeover logs its own failure and never throws. *)
Theorem onAppStateChangedEvent_events (S : WAStateT) (o : ClientOptions) (state : string) :
  let t := onAppStateChangedEvent S o state in
  let accepted :=
    ([CONNECTED S; OPENING S; PAIRING S; TIMEOUT S] ++
     (if truthy (takeoverOnConflict o) then [CONFLICT S] else []))%list in
  (state ∈ accepted -> emitted t = [STATE_CHANGED state]) /\
  (state ∉ accepted -> emitted t = [STATE_CHANGED state; DISCONNECTED state]) /\
  (truthy (takeoverOnConflict o) = true -> state = CONFLICT S ->
     emitted t = [STATE_CHANGED state] /\
     t = [Emit (STATE_CHANGED state); SetTimeout Takeover (takeoverTimeoutMs o)]) /\
  (forall evaluate,
     returned (takeover evaluate) = Ok tt /\
     forall e, evaluate = Rejected e ->
       effects (takeover evaluate) =
         [Call EvaluateTakeover;
          ConsoleLog ("WA conflict evaluate error " +:+ message e)]).
Proof.
  intros t accepted. subst t.
  assert (truthy (takeoverOnConflict o) = true -> includes accepted (CONFLICT S) = true)
    as Hconflict.
  { intros Hon. apply includes_elem_of. subst accepted. rewrite Hon. list_mem. }
  split; [|split; [|split]].
  - intros Hin. rewrite accepted_states. fold accepted.
    apply includes_elem_of in Hin. rewrite Hin. reflexivity.
  - intros Hnin. rewrite accepted_states. fold accepted.
    destruct (includes accepted state) eqn:E; [|reflexivity].
    apply includes_elem_of in E. contradiction.
  - intros Hon ->. split.
    + rewrite accepted_states. fold accepted. rewrite (Hconflict Hon). reflexivity.
    + specialize (Hconflict Hon). subst accepted. rewrite Hon in Hconflict.
      unfold onAppStateChangedEvent. rewrite Hon, String.eqb_refl, Hconflict.
      reflexivity.
  - intros evaluate. split; [reflexivity|]. intros e ->. reflexivity.
Qed.

Lemma onAppStateChangedEvent_events_witness :
  emitted (onAppStateChangedEvent WAState default_options "CONNECTED")
    = [STATE_CHANGED "CONNECTED"].
Proof.
  apply (proj1 (onAppStateChangedEvent_events WAState default_options "CONNECTED")).
  apply includes_elem_of. reflexivity.
Defined.

(** A state outside the accepted set emits both events, [change_state]
    and then [disconnected]. *)
Lemma change_state_and_disconnected_counterexample :
  emitted (onAppStateChangedEvent WAState default_options "UNPAIRED")
    = [STATE_CHANGED "UNPAIRED"; DISCONNECTED "UNPAIRED"] /\
  "UNPAIRED" ∉ [CONNECTED WAState; OPENING WAState; PAIRING WAState; TIMEOUT WAState].
Proof.
  split; [reflexivity|].
  rewrite <- includes_elem_of. discriminate.
Qed.

End SessionFacts.

(** ** The outbound dispatcher *)

Section DispatcherFacts.
Import Dispatcher.

Lemma contact_array_guard (content : Val) :
  isArray content && (0 <? length (items content))%nat
    && instanceOf (index content 0) Contact
  = selects ContactCardList content no_options.
Proof.
  destruct content as [| | | | |[|first rest]|]; reflexivity.
Qed.

(** The chain of [if]s is the first match over the resolution order. *)
Lemma resolveContent_first_match content options io :
  resolveContent content options io = resolve_first_match content options io.
Proof.
  unfold resolveContent, resolve_first_match, resolution_order.
  rewrite contact_array_guard.
  cbn [find selects]. destruct (instanceOf content MessageMedia); [reflexivity|].
  cbn [find selects]. destruct (instanceOf (media options) MessageMedia); [reflexivity|].
  cbn [find selects]. destruct (instanceOf content Location); [reflexivity|].
  cbn [find selects]. destruct (instanceOf content Contact).
  { cbn [populate]. destruct (id_serialized content); reflexivity. }
  destruct content as [| | | | |[|first rest]|cls props]; try reflexivity.
  - cbn [find selects instanceOf items]. destruct (instanceOf first Contact); [|reflexivity].
    cbn [populate]. destruct (serialized_ids (first :: rest)); reflexivity.
  - cbn [find selects]. destruct (instanceOf (VObj cls props) Buttons).
    + cbn [populate get mbind result_bind].
      destruct (is_vstr (default VUndefined (props !! "type")) "chat"); reflexivity.
    + destruct (instanceOf (VObj cls props) List); reflexivity.
Qed.

(** A variant writes the fields it owns and no other. *)
Lemma populate_frame v content options io io' (k : string) :
  populate v content options io = Ok io' ->
  k ∉ fields v -> io' !! k = io !! k.
Proof.
  intros Hpop Hk.
  assert (forall f, f ∈ fields v -> f ≠ k) as Hne by (intros f Hf ->; contradiction).
  destruct v; cbn [populate fields] in *.
  - injection Hpop as <-. rewrite lookup_insert_ne; [reflexivity|]. apply Hne. set_solver.
  - injection Hpop as <-.
    rewrite !lookup_insert_ne; [reflexivity| |]; apply Hne; set_solver.
  - injection Hpop as <-. rewrite lookup_insert_ne; [reflexivity|]. apply Hne. set_solver.
  - destruct (id_serialized content); [|discriminate].
    injection Hpop as <-. rewrite lookup_insert_ne; [reflexivity|]. apply Hne. set_solver.
  - assert (exists c, io' = <["contactCardList" := c]> io) as [c ->].
    { destruct content; try (injection Hpop as <-; eauto; fail).
      destruct (serialized_ids items0); [|discriminate].
      injection Hpop as <-. eauto. }
    rewrite lookup_insert_ne; [reflexivity|]. apply Hne. set_solver.
  - destruct (get content "type") as [type|]; [|discriminate]. cbn in Hpop.
    destruct (get content "body") as [body|]; [|discriminate]. cbn in Hpop.
    injection Hpop as <-.
    rewrite lookup_insert_ne; [|apply Hne; set_solver].
    destruct (is_vstr type "chat"); [reflexivity|].
    rewrite lookup_insert_ne; [reflexivity|]. apply Hne. set_solver.
  - injection Hpop as <-. rewrite lookup_insert_ne; [reflexivity|]. apply Hne. set_solver.
Qed.

Lemma serialized_ids_contacts (contacts sids : list Val) :
  Forall2 is_contact contacts sids -> serialized_ids contacts = Ok (VArr sids).
Proof.
  unfold serialized_ids. intros H.
  assert (mapM id_serialized contacts = Ok sids) as ->; [|reflexivity].
  induction H as [|c s cs ss [_ Hc] _ IH]; [reflexivity|].
  cbn. rewrite Hc. cbn. rewrite IH. reflexivity.
Qed.

(** A non-empty array of contacts, when no media comes with the options. *)
Lemma resolveContent_contacts (contacts sids : list Val) options io :
  contacts ≠ [] ->
  Forall2 is_contact contacts sids ->
  instanceOf (media options) MessageMedia = false ->
  resolveContent (VArr contacts) options io =
    Ok (VStr "", <["contactCardList" := VArr sids]> io).
Proof.
  intros Hne Hall Hmedia. unfold resolveContent. rewrite Hmedia.
  cbn [instanceOf isArray items andb].
  destruct Hall as [|c s cs ss [Hc Hs] Hrest]; [contradiction|].
  change (index (VArr (c :: cs)) 0) with c.
  change (0 <? length (c :: cs))%nat with true. rewrite Hc.
  cbn [andb]. rewrite (serialized_ids_contacts (c :: cs) (s :: ss)); [reflexivity|].
  constructor; [split|]; assumption.
Qed.

(** C7, as the code has it.  The content is resolved by the first match
    in the fixed order: media as the content, media with the options (the
    content becomes the caption), location, contact, non-empty array
    starting with a contact, buttons, list.  The matched variant writes
    the fields it owns and leaves the others as the options gave them, and
    the content becomes the empty string; without a match both stay as
    they are.  An array of four contact entities, when the options carry
    no media, puts their four serialized identities in input order into
    [contactCardList]. *)
Theorem sendMessage_content_resolution content options io :
  resolveContent content options io = resolve_first_match content options io /\
  (forall v io' k,
     populate v content options io = Ok io' -> k ∉ fields v -> io' !! k = io !! k) /\
  (forall content' io',
     resolveContent content options io = Ok (content', io') ->
     match find (fun v => selects v content options) resolution_order with
     | Some v => content' = VStr "" /\ populate v content options io = Ok io'
     | None => content' = content /\ io' = io
     end) /\
  (forall c1 c2 c3 c4 s1 s2 s3 s4,
     content = VArr [c1; c2; c3; c4] ->
     is_contact c1 s1 -> is_contact c2 s2 -> is_contact c3 s3 -> is_contact c4 s4 ->
     instanceOf (media options) MessageMedia = false ->
     resolveContent content options io =
       Ok (VStr "", <["contactCardList" := VArr [s1; s2; s3; s4]]> io) /\
     (<["contactCardList" := VArr [s1; s2; s3; s4]]> io) !! "contactCardList"
       = Some (VArr [s1; s2; s3; s4])).
Proof.
  split; [apply resolveContent_first_match|].
  split; [intros v io' k; apply populate_frame|].
  split.
  - intros content' io'. rewrite resolveContent_first_match.
    unfold resolve_first_match.
    destruct (find _ resolution_order) as [v|].
    + destruct (populate v content options io) as [io1|]; [|discriminate].
      intros [= <- <-]. split; reflexivity.
    + intros [= <- <-]. split; reflexivity.
  - intros c1 c2 c3 c4 s1 s2 s3 s4 -> H1 H2 H3 H4 Hmedia.
    split; [|apply lookup_insert_eq].
    apply resolveContent_contacts; [discriminate | | exact Hmedia].
    repeat (constructor; [assumption|]). constructor.
Qed.

Lemma contact_is_contact (sid : string) : is_contact (contact sid) (VStr sid).
Proof. split; reflexivity. Defined.

Lemma sendMessage_content_resolution_witness :
  resolveContent
    (VArr [contact "1@c.us"; contact "2@c.us"; contact "3@c.us"; contact "4@c.us"])
    no_options ∅
  = Ok (VStr "",
        <["contactCardList" :=
            VArr [VStr "1@c.us"; VStr "2@c.us"; VStr "3@c.us"; VStr "4@c.us"]]> ∅).
Proof.
  apply (proj2 (proj2 (proj2 (sendMessage_content_resolution
           (VArr [contact "1@c.us"; contact "2@c.us"; contact "3@c.us"; contact "4@c.us"])
           no_options ∅)))
         (contact "1@c.us") (contact "2@c.us") (contact "3@c.us") (contact "4@c.us")
         (VStr "1@c.us") (VStr "2@c.us") (VStr "3@c.us") (VStr "4@c.us")
         eq_refl (contact_is_contact _) (contact_is_contact _)
         (contact_is_contact _) (contact_is_contact _) eq_refl).
Defined.

(** Four contacts sent with media in the options: the second branch wins,
    the array becomes the caption of the media and [contactCardList] is not
    written. *)
Lemma contacts_with_options_media_counterexample :
  let content :=
    VArr [contact "1@c.us"; contact "2@c.us"; contact "3@c.us"; contact "4@c.us"] in
  let options :=
    mkOptions VUndefined VUndefined VUndefined VUndefined VUndefined VUndefined
      VUndefined VUndefined VUndefined VUndefined picture ∅ in
  exists io,
    sendMessage_resolved content options = Ok (VStr "", io) /\
    io !! "contactCardList" = None /\
    io !! "attachment" = Some picture /\
    io !! "caption" = Some content.
Proof.
  eexists. split; [reflexivity|]. repeat split; vm_compute; reflexivity.
Qed.

End DispatcherFacts.

(** ** Commands on the store of the page *)

Section CommandFacts.
Import Commands.

Variable Cmd_pinChat_rejects : Cmd -> option JsError.

Lemma pinChat_pinned models chatId chat :
  Store_Chat_get models chatId = Some chat -> pin chat = true ->
  pinChat Cmd_pinChat_rejects models chatId = ([], Ok true).
Proof. intros Hget Hpin. unfold pinChat. rewrite Hget, Hpin. reflexivity. Qed.

(** What the code tests: more than three chats, and the third one pinned. *)
Lemma pinChat_third_pinned models chatId chat third :
  Store_Chat_get models chatId = Some chat -> pin chat = false ->
  MAX_PIN_COUNT < length models ->
  models !! 2 = Some third -> pin third = true ->
  pinChat Cmd_pinChat_rejects models chatId = ([], Ok false).
Proof.
  intros Hget Hpin Hlen Hthird Hp. unfold pinChat. rewrite Hget, Hpin.
  assert ((MAX_PIN_COUNT <? length models)%nat = true) as -> by (apply Nat.ltb_lt; exact Hlen).
  change (MAX_PIN_COUNT - 1)%nat with 2. rewrite Hthird, Hp. reflexivity.
Qed.

Lemma pinChat_third_unpinned models chatId chat third :
  Store_Chat_get models chatId = Some chat -> pin chat = false ->
  models !! 2 = Some third -> pin third = false ->
  effects (pinChat Cmd_pinChat_rejects models chatId)
    = [StoreCmd (Cmd_pinChat (chat_id chat) true)].
Proof.
  intros Hget Hpin Hthird Hp. unfold pinChat. rewrite Hget, Hpin.
  change (MAX_PIN_COUNT - 1)%nat with 2. rewrite Hthird, Hp.
  destruct (MAX_PIN_COUNT <? length models)%nat;
    unfold Store_Cmd_pinChat; simpl;
    destruct (Cmd_pinChat_rejects _); reflexivity.
Qed.

Lemma no_pinned_count (models : list Chat) :
  forallb (fun d => negb (pin d)) models = true -> pinned_count models = 0.
Proof.
  unfold pinned_count. induction models as [|c rest IH]; [reflexivity|].
  simpl. intros [Hc Hrest]%andb_true_iff.
  rewrite filter_cons. destruct (decide (pin c = true)) as [Hp|_].
  - rewrite Hp in Hc. discriminate.
  - apply IH, Hrest.
Qed.

(** In a collection that keeps its pinned chats first, the first
    [pinned_count] chats are the pinned ones. *)
Lemma pinned_first_prefix (models : list Chat) : forall (i : nat),
  pinned_first models = true -> i < pinned_count models ->
  exists c, models !! i = Some c /\ pin c = true.
Proof.
  induction models as [|c rest IH]; intros i Hord Hi.
  - unfold pinned_count in Hi. simpl in Hi. lia.
  - simpl in Hord. unfold pinned_count in Hi. rewrite filter_cons in Hi.
    destruct (pin c) eqn:Hp.
    + destruct (decide (true = true)) as [_|Hn]; [|contradiction].
      destruct i as [|i]; [exists c; split; [reflexivity | exact Hp]|].
      simpl in Hi. apply (IH i Hord). unfold pinned_count. lia.
    + destruct (decide (false = true)) as [Hn|_]; [discriminate|].
      apply no_pinned_count in Hord. unfold pinned_count in Hord. lia.
Qed.

Lemma pinned_count_unpinned (models : list Chat) (chat : Chat) :
  chat ∈ models -> pin chat = false -> pinned_count models < length models.
Proof.
  unfold pinned_count. induction models as [|c rest IH]; intros Hin Hp.
  - inversion Hin.
  - rewrite filter_cons. simpl.
    pose proof (length_filter (fun c => pin c = true) rest) as Hle.
    destruct (decide (pin c = true)) as [Hc|Hc]; simpl.
    + apply elem_of_cons in Hin as [->|Hin]; [congruence|].
      specialize (IH Hin Hp). lia.
    + lia.
Qed.

Lemma Store_Chat_get_elem_of models chatId chat :
  Store_Chat_get models chatId = Some chat -> chat ∈ models.
Proof.
  unfold Store_Chat_get. intros H. apply find_some in H as [Hin _].
  apply list_elem_of_In, Hin.
Qed.

(** C8, as the code has it.  On a chat that is not pinned yet, in a
    collection that keeps its pinned chats ahead of the others and holds
    three of them (or more), [pinChat] returns false and sends no command
    to the store; the cap is the constant 3. *)
Theorem pinChat_refused_at_cap models chatId chat :
  Store_Chat_get models chatId = Some chat ->
  pin chat = false ->
  pinned_first models = true ->
  MAX_PIN_COUNT <= pinned_count models ->
  pinChat Cmd_pinChat_rejects models chatId = ([], Ok false) /\
  commands (effects (pinChat Cmd_pinChat_rejects models chatId)) = [] /\
  MAX_PIN_COUNT = 3.
Proof.
  intros Hget Hpin Hord Hcap.
  assert (pinChat Cmd_pinChat_rejects models chatId = ([], Ok false)) as E.
  { destruct (pinned_first_prefix models 2 Hord) as (third & Hthird & Hp);
      [unfold MAX_PIN_COUNT in Hcap; lia|].
    apply (pinChat_third_pinned models chatId chat third); try assumption.
    pose proof (pinned_count_unpinned models chat
                  (Store_Chat_get_elem_of _ _ _ Hget) Hpin).
    lia. }
  rewrite E. repeat split.
Qed.

(** C9. On a chat whose pin flag is set, [pinChat] returns true and sends
    no command, so the store is as it was, and a second call answers the
    same. *)
Theorem pinChat_already_pinned run_cmd models chatId chat :
  Store_Chat_get models chatId = Some chat ->
  pin chat = true ->
  let first := pinChat Cmd_pinChat_rejects models chatId in
  let models' := store_after run_cmd (effects first) models in
  returned first = Ok true /\
  effects first = [] /\
  models' = models /\
  Store_Chat_get models' chatId = Some chat /\
  pinChat Cmd_pinChat_rejects models' chatId = first.
Proof.
  intros Hget Hpin first models'. subst models' first.
  rewrite (pinChat_pinned models chatId chat Hget Hpin).
  cbn [effects returned fst snd]. unfold store_after. cbn.
  rewrite (pinChat_pinned models chatId chat Hget Hpin). auto.
Qed.

End CommandFacts.

Lemma pinChat_refused_at_cap_witness :
  Commands.pinChat (fun _ => None) Commands.ordered_models "d@c.us" = ([], Ok false).
Proof.
  apply (pinChat_refused_at_cap (fun _ => None) Commands.ordered_models "d@c.us"
           (Commands.mkChat "d@c.us" false));
    [reflexivity | reflexivity | reflexivity | vm_compute; lia].
Defined.

(** Three pinned chats that are not the first three of the collection:
    the third chat is not pinned, and [pinChat] pins a fourth one. *)
Lemma pinChat_unordered_counterexample :
  Commands.pinned_count Commands.unordered_models = 3 /\
  Commands.Store_Chat_get Commands.unordered_models "d@c.us"
    = Some (Commands.mkChat "d@c.us" false) /\
  Commands.pinChat (fun _ => None) Commands.unordered_models "d@c.us"
    = ([StoreCmd (Cmd_pinChat "d@c.us" true)], Ok true).
Proof. repeat split. Qed.

Lemma pinChat_already_pinned_witness :
  Commands.pinChat (fun _ => None) Commands.ordered_models "b@c.us" = ([], Ok true) /\
  Commands.store_after (fun _ ms => ms)
    (effects (Commands.pinChat (fun _ => None) Commands.ordered_models "b@c.us"))
    Commands.ordered_models = Commands.ordered_models.
Proof.
  pose proof (pinChat_already_pinned (fun _ => None) (fun _ ms => ms)
                Commands.ordered_models "b@c.us" (Commands.mkChat "b@c.us" true)
                eq_refl eq_refl) as (Hret & Heff & Hstore & _).
  split; [|exact Hstore].
  destruct (Commands.pinChat (fun _ => None) Commands.ordered_models "b@c.us") as [t r].
  simpl in Hret, Heff. rewrite Hret, Heff. reflexivity.
Defined.

Section NumberIdFacts.
Import Commands.

Example numberId_plain : numberId "4915730000000" = "+4915730000000@c.us".
Proof. reflexivity. Qed.

Example numberId_complete : numberId "+4915730000000@c.us" = "+4915730000000@c.us".
Proof. reflexivity. Qed.



End NumberIdFacts.

(** ** Ids sent to the page *)

Section TextFacts.
Import Stdlib.Strings.Ascii.
Import Text Queries.

Example formattedNumberId_c_us :
  formattedNumberId "4915730000000@c.us" = "4915730000000@s.whatsapp.net".
Proof. reflexivity. Qed.

Example formattedNumberId_bare :
  formattedNumberId "4915730000000" = "4915730000000@s.whatsapp.net".
Proof. reflexivity. Qed.

Example countryCodeId_id :
  countryCodeId "+49 1573 0000000@c.us" = "491573 0000000".
Proof. reflexivity. Qed.

Lemma append_cons (c : Ascii.ascii) (a b : string) :
  String c a +:+ b = String c (a +:+ b).
Proof. reflexivity. Qed.

Lemma append_nil (b : string) : "" +:+ b = b.
Proof. reflexivity. Qed.

Lemma chars_app (a b : string) : chars (a +:+ b) = (chars a ++ chars b)%list.
Proof.
  induction a as [|c a IH]; [reflexivity|].
  rewrite append_cons. simpl. rewrite IH. reflexivity.
Qed.

Lemma app_assoc_str (a b c : string) : (a +:+ b) +:+ c = a +:+ (b +:+ c).
Proof.
  induction a as [|x a IH]; [reflexivity|].
  rewrite !append_cons, IH. reflexivity.
Qed.

Lemma app_empty_r (a : string) : a +:+ "" = a.
Proof.
  induction a as [|x a IH]; [reflexivity|]. rewrite append_cons, IH. reflexivity.
Qed.

Lemma length_app_str (a b : string) :
  String.length (a +:+ b) = String.length a + String.length b.
Proof.
  induction a as [|x a IH]; [reflexivity|]. rewrite append_cons. simpl. rewrite IH. reflexivity.
Qed.

Lemma prefix_nil (s : string) : String.prefix "" s = true.
Proof. destruct s; reflexivity. Qed.

Lemma prefix_cons (c a : Ascii.ascii) (t s : string) :
  String.prefix (String c t) (String a s) = true <-> c = a /\ String.prefix t s = true.
Proof.
  simpl. destruct (Ascii.ascii_dec c a) as [->|Hne].
  - split; [intros H; split; [reflexivity | exact H] | intros [_ H]; exact H].
  - split; [discriminate | intros [Heq _]; contradiction].
Qed.

Lemma prefix_app (t r : string) : String.prefix t (t +:+ r) = true.
Proof.
  induction t as [|c t IH]; [apply prefix_nil|].
  rewrite append_cons. apply prefix_cons. split; [reflexivity | exact IH].
Qed.

Lemma prefix_inv (t : string) : forall s,
  String.prefix t s = true -> exists r, s = t +:+ r.
Proof.
  induction t as [|c t IH]; intros s H.
  - exists s. reflexivity.
  - destruct s as [|a s]; [discriminate|].
    apply prefix_cons in H as [-> H].
    destruct (IH s H) as [r ->]. exists r. reflexivity.
Qed.

Lemma str_drop_app (p r : string) : str_drop (String.length p) (p +:+ r) = r.
Proof.
  induction p as [|c p IH]; [destruct r; reflexivity|].
  rewrite append_cons. simpl. exact IH.
Qed.

Lemma substring_all (t : string) : String.substring 0 (String.length t) t = t.
Proof. induction t as [|c t IH]; simpl; [reflexivity | rewrite IH; reflexivity]. Qed.

Lemma substring_skip (p s : string) (m : nat) :
  String.substring (String.length p) m (p +:+ s) = String.substring 0 m s.
Proof.
  induction p as [|c p IH]; [reflexivity|]. rewrite append_cons. simpl. exact IH.
Qed.

(** A string splits at every position up to its length. *)
Lemma split_at (n : nat) : forall s,
  n <= String.length s ->
  exists p, String.length p = n /\
            s = p +:+ String.substring n (String.length s - n) s.
Proof.
  induction n as [|n IH]; intros s Hn.
  - exists "". split; [reflexivity|]. rewrite Nat.sub_0_r, substring_all. reflexivity.
  - destruct s as [|c s]; simpl in Hn; [lia|].
    destruct (IH s ltac:(lia)) as (p & Hp & Hs).
    exists (String c p). split; [simpl; lia|].
    rewrite append_cons. simpl. rewrite <- Hs. reflexivity.
Qed.

(** [endsWith] and [startsWith] say that the string is an append. *)
Lemma endsWith_spec (s t : string) : endsWith s t = true <-> exists p, s = p +:+ t.
Proof.
  unfold endsWith. rewrite andb_true_iff, String.eqb_eq, Nat.leb_le. split.
  - intros [Hsub Hle].
    destruct (split_at (String.length s - String.length t) s ltac:(lia)) as (p & Hp & Hs).
    exists p. rewrite Hs at 1. f_equal. rewrite <- Hsub at 3. f_equal. lia.
  - intros [p ->]. rewrite length_app_str. split; [|lia].
    replace (String.length p + String.length t - String.length t) with (String.length p)
      by lia.
    rewrite substring_skip. apply substring_all.
Qed.

Lemma startsWith_spec (s t : string) : startsWith s t = true <-> exists r, s = t +:+ r.
Proof.
  unfold startsWith. split; [apply prefix_inv | intros [r ->]; apply prefix_app].
Qed.

Lemma str_includes_prefix (s t : string) :
  String.prefix t s = true -> str_includes s t = true.
Proof. intros H. destruct s; cbn [str_includes]; rewrite H; reflexivity. Qed.

Lemma str_includes_app (a t b : string) : str_includes (a +:+ t +:+ b) t = true.
Proof.
  induction a as [|c a IH].
  - rewrite append_nil. apply str_includes_prefix, prefix_app.
  - rewrite append_cons. cbn [str_includes]. rewrite IH. apply orb_true_r.
Qed.

Lemma str_includes_inv (s t : string) :
  str_includes s t = true -> exists a b, s = a +:+ t +:+ b.
Proof.
  induction s as [|c s IH]; cbn [str_includes]; rewrite orb_true_iff.
  - intros [H|H]; [|discriminate]. destruct (prefix_inv _ _ H) as [r Hr].
    exists "", r. exact Hr.
  - intros [H|H].
    + destruct (prefix_inv _ _ H) as [r Hr]. exists "", r. exact Hr.
    + destruct (IH H) as (a & b & ->). exists (String c a), b. reflexivity.
Qed.

Lemma replace_prefix (pat rep r : string) : replace (pat +:+ r) pat rep = rep +:+ r.
Proof.
  destruct (pat +:+ r) eqn:E; cbn [replace]; rewrite <- E; clear E;
    rewrite prefix_app, str_drop_app; reflexivity.
Qed.

Lemma replace_hit (s pat rep : string) :
  String.prefix pat s = true ->
  exists r, s = pat +:+ r /\ replace s pat rep = rep +:+ r.
Proof.
  intros H. destruct (prefix_inv _ _ H) as [r Hr]. exists r. split; [exact Hr|].
  subst s. apply replace_prefix.
Qed.

(** [replace] leaves a string without the pattern alone, and otherwise
    swaps one occurrence of the pattern for the replacement. *)
Lemma replace_cases (s pat rep : string) :
  (str_includes s pat = false /\ replace s pat rep = s) \/
  (exists a b, s = a +:+ pat +:+ b /\ replace s pat rep = a +:+ rep +:+ b).
Proof.
  induction s as [|c s IH].
  - destruct (String.prefix pat "") eqn:E.
    + right. destruct (replace_hit _ _ rep E) as (r & Hr & Hrep).
      exists "", r. split; assumption.
    + left. cbn [replace str_includes]. rewrite E. split; reflexivity.
  - destruct (String.prefix pat (String c s)) eqn:E.
    + right. destruct (replace_hit _ _ rep E) as (r & Hr & Hrep).
      exists "", r. split; assumption.
    + cbn [replace str_includes]. rewrite E.
      destruct IH as [[Hinc Hrep] | (a & b & Hs & Hrep)].
      * left. rewrite Hinc, Hrep. split; reflexivity.
      * right. exists (String c a), b. rewrite Hrep, Hs. split; reflexivity.
Qed.


Lemma count_char_chars (c : Ascii.ascii) (s : string) :
  count_char c s = 0 <-> c ∉ chars s.
Proof.
  induction s as [|x s IH]; simpl.
  - split; [intros _ H; inversion H | reflexivity].
  - rewrite not_elem_of_cons, <- IH. destruct (Ascii.eqb_spec x c) as [->|Hne].
    + split; [discriminate | intros [H _]; contradiction].
    + split; [intros H; split; [congruence | exact H] | intros [_ H]; exact H].
Qed.


(** A pattern of one character that does not occur changes nothing. *)
Lemma replace_absent_char (c : Ascii.ascii) (s rep : string) :
  c ∉ chars s -> replace s (String c "") rep = s.
Proof.
  intros Hc. destruct (replace_cases s (String c "") rep)
    as [[_ H] | (a & b & Hs & _)]; [exact H|].
  exfalso. apply Hc. rewrite Hs, !chars_app. simpl. set_solver.
Qed.

(** Removing a pattern that starts with a character the text before it
    lacks: the occurrence at the end of that text is the one removed. *)
Lemma replace_after (c : Ascii.ascii) (pat rep p r : string) :
  c ∉ chars p ->
  replace (p +:+ String c pat +:+ r) (String c pat) rep = p +:+ rep +:+ r.
Proof.
  induction p as [|x p IH]; intros Hc.
  - rewrite !append_nil. apply replace_prefix.
  - apply not_elem_of_cons in Hc as [Hx Hc]. rewrite !(append_cons x). cbn [replace].
    destruct (String.prefix (String c pat) (String x (p +:+ String c pat +:+ r))) eqn:E.
    + apply prefix_cons in E as [-> _]. contradiction.
    + rewrite (IH Hc). reflexivity.
Qed.

Lemma numberId_shape_aux (n : string) :
  exists p, Commands.numberId n = "+" +:+ p +:+ "@c.us".
Proof.
  unfold Commands.numberId.
  set (n1 := if negb (endsWith n "@c.us") then n +:+ "@c.us" else n).
  assert (exists q, n1 = q +:+ "@c.us") as [q Hq].
  { subst n1. destruct (endsWith n "@c.us") eqn:E; simpl.
    - apply endsWith_spec, E.
    - exists n. reflexivity. }
  destruct (startsWith n1 "+") eqn:E; simpl.
  - apply startsWith_spec in E as [r Hr].
    destruct q as [|x q].
    + rewrite append_nil in Hq. rewrite Hq in Hr. discriminate.
    + rewrite Hq, append_cons in Hr. injection Hr as -> _.
      exists q. rewrite Hq. reflexivity.
  - exists q. rewrite Hq. reflexivity.
Qed.

Lemma numberId_affixes (n : string) :
  startsWith (Commands.numberId n) "+" = true /\
  endsWith (Commands.numberId n) "@c.us" = true.
Proof.
  destruct (numberId_shape_aux n) as [p Hp]. rewrite Hp.
  split; [apply startsWith_spec; eexists; reflexivity|].
  apply endsWith_spec. exists ("+" +:+ p). rewrite app_assoc_str. reflexivity.
Qed.

(** X1. Whatever the input, the id [getNumberId] and [isRegisteredUser]
    look up starts with "+" and ends with "@c.us". *)
Theorem numberId_shape (n : string) :
  startsWith (Commands.numberId n) "+" = true /\
  endsWith (Commands.numberId n) "@c.us" = true /\
  startsWith (registeredUserId n) "+" = true /\
  endsWith (registeredUserId n) "@c.us" = true.
Proof.
  change (registeredUserId n) with (Commands.numberId n).
  destruct (numberId_affixes n). auto.
Qed.

(** X2. Normalising an id twice is normalising it once: an id returned
    with its "+" and "@c.us" is looked up as it is. *)
Theorem numberId_idempotent (n : string) :
  Commands.numberId (Commands.numberId n) = Commands.numberId n.
Proof.
  destruct (numberId_affixes n) as (Hs & He).
  unfold Commands.numberId at 1. rewrite He. simpl. rewrite Hs. reflexivity.
Qed.

(** X3. [isRegisteredUser] has no handler around its round trip: where
    the round trip rejects, or the page is not there yet, it rejects with
    that error, while [getNumberId] on the same input resolves to [null]. *)
Theorem isRegisteredUser_rejects (pupPage : option (string -> Outcome Val)) (id : string) :
  (forall e, Commands.pupPage_evaluate pupPage (Commands.numberId id) = Rejected e ->
             isRegisteredUser pupPage id = Rejected e /\
             Commands.getNumberId pupPage (VStr id) = Resolved VNull) /\
  (pupPage = None -> exists e, isRegisteredUser pupPage id = Rejected e).
Proof.
  unfold isRegisteredUser. cbn [Commands.getNumberId].
  change (registeredUserId id) with (Commands.numberId id). split.
  - intros e ->. split; reflexivity.
  - intros ->. eexists. reflexivity.
Qed.

(** X4. The id [getFormattedNumber] sends always contains
    "@s.whatsapp.net", and an id that ends with it is sent unchanged. *)
Theorem formattedNumberId_domain (number : string) :
  str_includes (formattedNumberId number) "@s.whatsapp.net" = true /\
  (endsWith number "@s.whatsapp.net" = true -> formattedNumberId number = number).
Proof.
  unfold formattedNumberId. split.
  - match goal with |- context [negb (str_includes ?s _)] => set (n1 := s) end.
    destruct (str_includes n1 "@s.whatsapp.net") eqn:E; simpl; [exact E|].
    rewrite <- (app_empty_r (n1 +:+ "@s.whatsapp.net")), app_assoc_str.
    apply str_includes_app.
  - intros He. rewrite He. simpl.
    apply endsWith_spec in He as [p ->].
    rewrite <- (app_empty_r (p +:+ "@s.whatsapp.net")) at 1.
    rewrite app_assoc_str, str_includes_app. reflexivity.
Qed.

Lemma formattedNumberId_domain_witness :
  formattedNumberId "4915730000000@s.whatsapp.net" = "4915730000000@s.whatsapp.net".
Proof.
  apply (proj2 (formattedNumberId_domain "4915730000000@s.whatsapp.net")). reflexivity.
Defined.

Lemma not_endsWith_last (s t : string) (x y : Ascii.ascii) :
  last (chars s) = Some x -> last (chars t) = Some y -> x ≠ y -> endsWith s t = false.
Proof.
  intros Hs Ht Hne. destruct (endsWith s t) eqn:E; [|reflexivity].
  apply endsWith_spec in E as [p ->]. rewrite chars_app, last_app, Ht in Hs. congruence.
Qed.

(** X5. A "@c.us" id whose user part has no letter c is sent by
    [getFormattedNumber] with the domain replaced: [p@c.us] becomes
    [p@s.whatsapp.net]. *)
Theorem formattedNumberId_c_us_id (p : string) :
  "c"%char ∉ chars p ->
  formattedNumberId (p +:+ "@c.us") = p +:+ "@s.whatsapp.net".
Proof.
  intros Hc. unfold formattedNumberId.
  rewrite (not_endsWith_last (p +:+ "@c.us") "@s.whatsapp.net" "s" "t");
    [|rewrite chars_app, last_app; reflexivity | reflexivity | discriminate].
  simpl negb. cbv iota.
  assert (replace (p +:+ "@c.us") "c.us" "s.whatsapp.net" = p +:+ "@s.whatsapp.net") as ->.
  { pose proof (replace_after "c" ".us" "s.whatsapp.net" (p +:+ "@") "" ) as H.
    rewrite !app_assoc_str in H. rewrite !app_empty_r in H. apply H.
    rewrite chars_app, elem_of_app.
    intros [?|Hat]; [contradiction|].
    apply list_elem_of_In in Hat. simpl in Hat. intuition discriminate. }
  rewrite <- (app_empty_r (p +:+ "@s.whatsapp.net")) at 1.
  rewrite app_assoc_str, str_includes_app. reflexivity.
Qed.

Lemma formattedNumberId_c_us_id_witness :
  formattedNumberId ("+4915730000000" +:+ "@c.us") = "+4915730000000" +:+ "@s.whatsapp.net".
Proof.
  apply (formattedNumberId_c_us_id "+4915730000000"). list_mem.
Defined.

Lemma numberId_of_plain_number (d : string) :
  "+"%char ∉ chars d -> "@"%char ∉ chars d ->
  Commands.numberId d = "+" +:+ d +:+ "@c.us".
Proof.
  intros Hplus Hat. unfold Commands.numberId.
  assert (endsWith d "@c.us" = false) as ->.
  { destruct (endsWith d "@c.us") eqn:E; [|reflexivity].
    apply endsWith_spec in E as [p ->]. exfalso. apply Hat.
    rewrite chars_app, elem_of_app. right. list_mem. }
  simpl negb. cbv iota.
  assert (startsWith (d +:+ "@c.us") "+" = false) as ->; [|reflexivity].
  destruct (startsWith (d +:+ "@c.us") "+") eqn:E; [|reflexivity].
  apply startsWith_spec in E as [r Hr]. destruct d as [|x d].
  - discriminate.
  - rewrite !append_cons in Hr. injection Hr as -> _. exfalso. apply Hplus. list_mem.
Qed.

(** X6. For a number without space, "+" and "@", the id [getCountryCode]
    sends for the normalised id of the number is the number again:
    [getCountryCode] undoes the "+" and "@c.us" that [getNumberId] adds. *)
Theorem countryCodeId_numberId (d : string) :
  " "%char ∉ chars d -> "+"%char ∉ chars d -> "@"%char ∉ chars d ->
  countryCodeId (Commands.numberId d) = d.
Proof.
  intros Hsp Hplus Hat. rewrite (numberId_of_plain_number d Hplus Hat). unfold countryCodeId.
  rewrite (replace_absent_char " "%char).
  - rewrite (replace_prefix "+" "" (d +:+ "@c.us")), append_nil.
    pose proof (replace_after "@" "c.us" "" d "" Hat) as H.
    rewrite !app_empty_r in H. exact H.
  - rewrite !chars_app, !elem_of_app. intros [H|[H|H]].
    + apply list_elem_of_In in H. simpl in H. intuition discriminate.
    + contradiction.
    + apply list_elem_of_In in H. simpl in H. intuition discriminate.
Qed.

Lemma countryCodeId_numberId_witness :
  countryCodeId (Commands.numberId "4915730000000") = "4915730000000".
Proof. apply (countryCodeId_numberId "4915730000000"); list_mem. Defined.




End TextFacts.

(** ** Streams of notifications *)

Section StreamFacts.
Import EventBridge.

Variable getMessageModel : RawMsg -> RawMsg.

Lemma run_split (last_message : Bridge) (first second : list Mutation) :
  run getMessageModel last_message (first ++ second) =
    (fst (run getMessageModel (fst (run getMessageModel last_message first)) second),
     (snd (run getMessageModel last_message first) ++
      snd (run getMessageModel (fst (run getMessageModel last_message first)) second))%list).
Proof.
  revert last_message. induction first as [|mut rest IH]; intros last_message.
  - simpl. destruct (run getMessageModel last_message second). reflexivity.
  - simpl. destruct (deliver getMessageModel last_message mut) as [lm evs].
    rewrite IH. destruct (run getMessageModel lm rest) as [lm' evs']. simpl.
    rewrite app_assoc. reflexivity.
Qed.

Lemma deliver_slot (last_message : Bridge) (mut : Mutation) (m : RawMsg) :
  fst (deliver getMessageModel last_message mut) = Some m ->
  last_message = Some m \/
  (exists raw, mut = MsgChange raw /\ m = getMessageModel raw /\ msg_type m ≠ "revoked").
Proof.
  destruct mut as [raw|raw|raw|raw]; simpl; auto.
  unfold onChangeMessageEvent.
  destruct (String.eqb_spec (msg_type (getMessageModel raw)) "revoked") as [_|Hne]; simpl.
  - auto.
  - intros [= <-]. right. exists raw. auto.
Qed.

Lemma run_slot (muts : list Mutation) : forall (last_message : Bridge) (m : RawMsg),
  fst (run getMessageModel last_message muts) = Some m ->
  last_message = Some m \/
  (exists raw, MsgChange raw ∈ muts /\ m = getMessageModel raw /\ msg_type m ≠ "revoked").
Proof.
  induction muts as [|mut rest IH]; intros last_message m; simpl.
  - auto.
  - destruct (deliver getMessageModel last_message mut) as [lm evs] eqn:E.
    destruct (run getMessageModel lm rest) as [lm' evs'] eqn:R. simpl.
    intros ->. specialize (IH lm m). rewrite R in IH.
    destruct (IH eq_refl) as [-> | (raw & Hin & Hm & Hty)].
    + pose proof (deliver_slot last_message mut m) as H. rewrite E in H.
      destruct (H eq_refl) as [-> | (raw & -> & Hm & Hty)]; [auto|].
      right. exists raw. split; [apply list_elem_of_here | auto].
    + right. exists raw. split; [apply list_elem_of_further, Hin | auto].
Qed.

(** X9. From an empty slot, whatever the page delivers, the record in the
    last-seen slot is never of type [revoked]: it is the model of a change
    notification of the stream. *)
Theorem last_message_never_revoked (muts : list Mutation) (m : RawMsg) :
  fst (run getMessageModel None muts) = Some m ->
  msg_type m ≠ "revoked" /\
  exists raw, MsgChange raw ∈ muts /\ m = getMessageModel raw.
Proof.
  intros H. destruct (run_slot muts None m H) as [[=] | (raw & Hin & Hm & Hty)].
  split; [exact Hty | exists raw; auto].
Qed.

Lemma run_change_then_type (lm : Bridge) (changed after : RawMsg) :
  msg_type (getMessageModel changed) ≠ "revoked" ->
  msg_type (getMessageModel after) = "revoked" ->
  snd (run getMessageModel lm [MsgChange changed; MsgChangeType after]) =
    [MESSAGE_REVOKED_EVERYONE (mkMessage (getMessageModel after))
       (if String.eqb (key_id (msg_id (getMessageModel after)))
                      (key_id (msg_id (getMessageModel changed)))
        then Some (mkMessage (getMessageModel changed)) else None)].
Proof.
  intros Hc Ha. simpl. unfold onChangeMessageEvent, onChangeMessageTypeEvent.
  apply String.eqb_neq in Hc. rewrite Hc, Ha. reflexivity.
Qed.

(** X10. After any history, a change of a message followed by its type
    change to [revoked] ends the events with one
    [message_revoke_everyone] that carries the record of the change. *)
Theorem revoke_recovers_last_change (lm : Bridge) (history : list Mutation)
  (before after : RawMsg) :
  msg_type (getMessageModel before) ≠ "revoked" ->
  msg_type (getMessageModel after) = "revoked" ->
  key_id (msg_id (getMessageModel after)) = key_id (msg_id (getMessageModel before)) ->
  snd (run getMessageModel lm (history ++ [MsgChange before; MsgChangeType after])) =
    (snd (run getMessageModel lm history) ++
     [MESSAGE_REVOKED_EVERYONE (mkMessage (getMessageModel after))
        (Some (mkMessage (getMessageModel before)))])%list.
Proof.
  intros Hb Ha Hid. rewrite run_split. cbn [snd]. f_equal.
  rewrite (run_change_then_type _ before after Hb Ha).
  apply String.eqb_eq in Hid. rewrite Hid. reflexivity.
Qed.

(** X11. The slot holds one record: once another message has changed, a
    revocation of a message with a different [id.id] carries no earlier
    record, whatever was delivered before. *)
Theorem revoke_after_other_change (lm : Bridge) (history : list Mutation)
  (other after : RawMsg) :
  msg_type (getMessageModel other) ≠ "revoked" ->
  msg_type (getMessageModel after) = "revoked" ->
  key_id (msg_id (getMessageModel after)) ≠ key_id (msg_id (getMessageModel other)) ->
  snd (run getMessageModel lm (history ++ [MsgChange other; MsgChangeType after])) =
    (snd (run getMessageModel lm history) ++
     [MESSAGE_REVOKED_EVERYONE (mkMessage (getMessageModel after)) None])%list.
Proof.
  intros Hb Ha Hid. rewrite run_split. cbn [snd]. f_equal.
  rewrite (run_change_then_type _ other after Hb Ha).
  apply String.eqb_neq in Hid. rewrite Hid. reflexivity.
Qed.

Lemma deliver_revoke_me (lm : Bridge) (mut : Mutation) (m : Message) :
  MESSAGE_REVOKED_ME m ∈ snd (deliver getMessageModel lm mut) <->
  exists raw, mut = MsgRemove raw /\ isNewMsg raw = true /\
              isNewMsg (getMessageModel raw) = true /\
              m = mkMessage (getMessageModel raw).
Proof.
  split.
  - destruct mut as [raw|raw|raw|raw]; simpl.
    + destruct (isNewMsg raw); [|intros H; inversion H].
      unfold onAddMessageEvent.
      destruct (negb _); [intros H; inversion H|].
      destruct (String.eqb _ "gp2").
      * destruct (_ || _); [|destruct (_ || _)]; list_mem.
      * destruct (key_fromMe _); list_mem.
    + intros H. inversion H.
    + unfold onChangeMessageTypeEvent. destruct (String.eqb _ "revoked"); list_mem.
    + unfold onRemoveMessageEvent.
      destruct (isNewMsg raw) eqn:E1; [|intros H; inversion H].
      destruct (isNewMsg (getMessageModel raw)) eqn:E2; simpl; [|intros H; inversion H].
      intros H. apply list_elem_of_singleton in H. injection H as ->.
      exists raw. auto.
  - intros (raw & -> & H1 & H2 & ->). simpl. unfold onRemoveMessageEvent.
    rewrite H1, H2. simpl. apply list_elem_of_here.
Qed.

(** X12. In any stream, a [message_revoke_me] is emitted for a message
    exactly when the stream holds a removal whose record of the store and
    whose model are both flagged new; no other notification and no state
    of the slot produces one. *)
Theorem revoke_me_iff_new_removal (muts : list Mutation) (lm : Bridge) (m : Message) :
  MESSAGE_REVOKED_ME m ∈ snd (run getMessageModel lm muts) <->
  exists raw, MsgRemove raw ∈ muts /\ isNewMsg raw = true /\
              isNewMsg (getMessageModel raw) = true /\
              m = mkMessage (getMessageModel raw).
Proof.
  revert lm. induction muts as [|mut rest IH]; intros lm.
  - simpl. split; [intros H; inversion H | intros (raw & H & _); inversion H].
  - simpl. pose proof (deliver_revoke_me lm mut m) as Hd.
    destruct (deliver getMessageModel lm mut) as [lm1 evs].
    specialize (IH lm1). destruct (run getMessageModel lm1 rest) as [lm2 evs'].
    simpl in *. rewrite elem_of_app, Hd, IH. split.
    + intros [(raw & Heq & H)|(raw & Hin & H)]; exists raw; (split; [|exact H]).
      * rewrite Heq. apply list_elem_of_here.
      * apply list_elem_of_further, Hin.
    + intros (raw & Hin & H). apply elem_of_cons in Hin as [Heq|Hin].
      * left. exists raw. auto.
      * right. exists raw. auto.
Qed.

End StreamFacts.

Lemma last_message_never_revoked_witness :
  msg_type EventBridge.received ≠ "revoked".
Proof.
  apply (last_message_never_revoked (fun m => m)
           [EventBridge.MsgChange EventBridge.received;
            EventBridge.MsgChange EventBridge.revoked]
           EventBridge.received).
  reflexivity.
Defined.

Lemma revoke_recovers_last_change_witness :
  snd (EventBridge.run (fun m => m) None
         ([EventBridge.MsgAdd EventBridge.invited] ++
          [EventBridge.MsgChange EventBridge.received;
           EventBridge.MsgChangeType EventBridge.revoked])) =
  (snd (EventBridge.run (fun m => m) None [EventBridge.MsgAdd EventBridge.invited]) ++
   [MESSAGE_REVOKED_EVERYONE (mkMessage EventBridge.revoked)
      (Some (mkMessage EventBridge.received))])%list.
Proof.
  apply (revoke_recovers_last_change (fun m => m) None
           [EventBridge.MsgAdd EventBridge.invited]
           EventBridge.received EventBridge.revoked);
    [discriminate | reflexivity | reflexivity].
Defined.

Lemma revoke_after_other_change_witness :
  snd (EventBridge.run (fun m => m) None
         ([EventBridge.MsgChange EventBridge.received] ++
          [EventBridge.MsgChange EventBridge.invited;
           EventBridge.MsgChangeType EventBridge.revoked])) =
  (snd (EventBridge.run (fun m => m) None [EventBridge.MsgChange EventBridge.received]) ++
   [MESSAGE_REVOKED_EVERYONE (mkMessage EventBridge.revoked) None])%list.
Proof.
  apply (revoke_after_other_change (fun m => m) None
           [EventBridge.MsgChange EventBridge.received]
           EventBridge.invited EventBridge.revoked);
    [discriminate | reflexivity | discriminate].
Defined.

(** ** More on the handshake and the session *)

Section SessionLaws.
Import Handshake Session Traces.

Lemma qrChanged_token (N n : Z) (qr : string) :
  head (snd (qrChanged N n qr)) = Some (Emit (QR_RECEIVED qr)) /\
  qr_tokens (snd (qrChanged N n qr)) = [qr].
Proof.
  unfold qrChanged. destruct (N >? 0)%Z; [destruct (n + 1 >? N)%Z|]; split; reflexivity.
Qed.

Lemma qr_calls_tokens (N : Z) (tokens : list string) : forall (n : Z),
  qr_tokens (concat (snd (qr_calls N n tokens))) = tokens /\
  forall k t, snd (qr_calls N n tokens) !! k = Some t ->
              exists qr, tokens !! k = Some qr /\
                         head t = Some (Emit (QR_RECEIVED qr)).
Proof.
  induction tokens as [|qr rest IH]; intros n.
  - split; [reflexivity | intros k t H; simpl in H; rewrite lookup_nil in H; discriminate].
  - simpl. destruct (qrChanged N n qr) as [n1 t1] eqn:E.
    pose proof (qrChanged_token N n qr) as [Hhead Htok]. rewrite E in Hhead, Htok.
    specialize (IH n1). destruct (qr_calls N n1 rest) as [n2 ts]. simpl in *.
    destruct IH as [IHtok IHk]. split.
    + unfold qr_tokens in *. rewrite omap_app, Htok, IHtok. reflexivity.
    + intros [|k] t H; simpl in H.
      * injection H as <-. exists qr. split; [reflexivity | exact Hhead].
      * apply (IHk k t H).
Qed.

(** X13. Every token the page reports reaches the host as a [qr] event,
    in order and as the first effect of its call, with or without a retry
    limit and also after the limit was passed. *)
Theorem qr_events_are_the_tokens (N : Z) (tokens : list string) :
  qr_tokens (concat (snd (qr_flow N tokens))) = tokens /\
  forall k t, snd (qr_flow N tokens) !! k = Some t ->
              exists qr, tokens !! k = Some qr /\
                         head t = Some (Emit (QR_RECEIVED qr)).
Proof.
  unfold qr_flow. destruct (qr_calls_tokens N tokens 0%Z) as [Hall Hcall].
  split.
  - exact Hall.
  - intros k t Hk. destruct (Hcall k t Hk) as (qr & Htok & Hhead).
    exists qr. split; assumption.
Qed.

Lemma propagates_bind {A B} (w : World) (m : M A) (f : A -> M B) :
  propagates w m -> (forall a, propagates w (f a)) -> propagates w (M_bind m f).
Proof.
  unfold propagates. intros Hm Hf s e Hin Hrej.
  rewrite effects_bind in Hin. rewrite effects_bind, returned_bind.
  apply elem_of_app in Hin as [Hin|Hin].
  - destruct (Hm s e Hin Hrej) as [Hret Hlast]. rewrite Hret.
    split; [reflexivity|]. rewrite app_nil_r. exact Hlast.
  - destruct (returned m) as [a|e']; [|inversion Hin].
    destruct (Hf a s e Hin Hrej) as [Hret Hlast].
    split; [exact Hret|]. rewrite last_app, Hlast. reflexivity.
Qed.

Lemma propagates_silent {A} (w : World) (m : M A) :
  (forall s, Call s ∉ effects m) -> propagates w m.
Proof. intros H s e Hin. destruct (H s Hin). Qed.

Lemma propagates_call (w : World) (s : Step) : propagates w (call w s).
Proof.
  intros s' e Hin Hrej. unfold call in *. simpl in *.
  apply list_elem_of_singleton in Hin. injection Hin as ->.
  rewrite Hrej. split; reflexivity.
Qed.

Lemma propagates_if {A} (w : World) (b : bool) (m1 m2 : M A) :
  propagates w m1 -> propagates w m2 -> propagates w (if b then m1 else m2).
Proof. destruct b; auto. Qed.

Lemma propagates_expose_all (w : World) (names : list string) :
  propagates w (expose_all w names).
Proof.
  induction names as [|name rest IH]; cbn [expose_all].
  - apply propagates_silent. intros s H. inversion H.
  - apply propagates_bind; [apply propagates_call | intros _; exact IH].
Qed.

Ltac silent := apply propagates_silent; intros ? Hsilent; simpl in Hsilent;
  first [ inversion Hsilent; fail
        | apply list_elem_of_singleton in Hsilent; discriminate ].

(** X14. [initialize] swallows no error: when an awaited call on
    puppeteer or the page rejects, that call is the last thing
    [initialize] does and its error is the one [initialize] throws. *)
Theorem initialize_propagates o w credentials :
  propagates w (initialize o w credentials).
Proof.
  unfold initialize.
  repeat first
    [ apply propagates_bind; [|intros ?]
    | apply propagates_if
    | apply propagates_call
    | apply propagates_expose_all ];
    try silent.
  - destruct (race w); silent.
  - unfold free_identifier. destruct (globalThis w !! "loggedAndTimeouted"); silent.
Qed.

Lemma initialize_propagates_witness :
  returned (initialize default_options offline VUndefined)
    = Throw (Error "net::ERR_INTERNET_DISCONNECTED") /\
  last (effects (initialize default_options offline VUndefined)) = Some (Call Goto).
Proof.
  apply (initialize_propagates default_options offline VUndefined Goto);
    [apply list_elem_of_In; vm_compute; intuition | reflexivity].
Defined.

Ltac always_or_absurd :=
  repeat first
    [ apply always_bind;
      [|let H := fresh "Hret" in intros ? H; try (simpl in H; discriminate H)]
    | apply always_if
    | apply always_ret
    | apply always_throw
    | apply always_emit
    | apply always_call
    | apply always_expose_all ].

(** X15. When the race of the two selectors ends in an error,
    [initialize] throws without having emitted any event or exposed any
    function; if the calls before the race went through, what it throws is
    the error of the race. *)
Theorem initialize_race_error o w credentials (err : JsError) :
  race w = RaceError err ->
  throws (initialize o w credentials) /\
  always (fun x => (forall e, x ≠ Emit e) /\ (forall name, x ≠ Call (ExposeFunction name)))
    (initialize o w credentials) /\
  ((forall s, rejects w s = None) ->
   returned (initialize o w credentials) = Throw err).
Proof.
  intros Hrace. split; [|split].
  - unfold initialize. rewrite Hrace.
    repeat lazymatch goal with
           | |- throws (M_bind (throw _) _) => fail
           | |- _ => apply throws_bind; intros ?
           end.
    apply throws_bind_l. eexists. reflexivity.
  - unfold initialize. rewrite Hrace. always_or_absurd; split; discriminate.
  - intros Hnone. unfold initialize, call. rewrite Hrace, !Hnone.
    destruct (truthy (browserWSEndpoint o)), (truthy credentials),
      (useDeprecatedSessionAuth o && truthy (session o)), (bypassCSP o); reflexivity.
Qed.

Lemma initialize_race_error_witness :
  returned (initialize default_options stalled VUndefined)
    = Throw (Error "waiting for selector failed: timeout exceeded").
Proof.
  apply (initialize_race_error default_options stalled VUndefined
           (Error "waiting for selector failed: timeout exceeded") eq_refl).
  reflexivity.
Defined.

Ltac not_a_callback :=
  split;
  [ let Hin := fresh "Hin" in let Heq := fresh "Heq" in
    intros ? Hin Heq; try discriminate Heq;
    injection Heq as <-; revert Hin; list_mem
  | split; [discriminate | intros ?; discriminate] ].

(** X16. With the JSON session on a multi-device account [initialize]
    always throws, and it never exposes one of the eight event callbacks,
    subscribes to the store or emits [ready]; when every call goes through
    it throws the error about multi-device accounts only after it has
    emitted [authenticated]. *)
Theorem initialize_legacy_on_multidevice o w credentials :
  useDeprecatedSessionAuth o = true ->
  MD_BACKEND w = true ->
  throws (initialize o w credentials) /\
  always (fun x => (forall name, name ∈ exposed_callbacks -> x ≠ Call (ExposeFunction name)) /\
                   x ≠ Call EvaluateStoreWiring /\
                   (forall args, x ≠ Emit (READY args)))
    (initialize o w credentials) /\
  ((forall s, rejects w s = None) -> (forall err, race w ≠ RaceError err) ->
   returned (initialize o w credentials) =
     Throw (Error "Authenticating via JSON session is not supported for MultiDevice-enabled WhatsApp accounts.") /\
   exists payload, Emit (AUTHENTICATED payload) ∈ effects (initialize o w credentials)).
Proof.
  intros Huse Hmd. split; [|split].
  - unfold initialize. rewrite Huse, Hmd. cbn [andb].
    repeat lazymatch goal with
           | |- throws (M_bind (throw _) _) => fail
           | |- _ => apply throws_bind; intros ?
           end.
    apply throws_bind_l. eexists. reflexivity.
  - unfold initialize. rewrite Huse, Hmd. cbn [andb].
    always_or_absurd; try not_a_callback.
    destruct (race w); always_or_absurd.
  - intros Hnone Hrace. unfold initialize, call. rewrite Huse, Hmd, !Hnone.
    destruct (race w) as [| |err] eqn:E; [| |destruct (Hrace err eq_refl)];
      destruct (truthy (browserWSEndpoint o)), (truthy credentials),
        (truthy (session o)), (bypassCSP o);
      (split; [reflexivity|]); eexists; apply list_elem_of_In; cbn;
      repeat (first [left; reflexivity | right]).
Qed.

Lemma initialize_legacy_on_multidevice_witness :
  returned (initialize legacy_options cooperative VUndefined) =
    Throw (Error "Authenticating via JSON session is not supported for MultiDevice-enabled WhatsApp accounts.").
Proof.
  apply (initialize_legacy_on_multidevice legacy_options cooperative VUndefined
           eq_refl eq_refl);
    [reflexivity | discriminate].
Defined.

(** X17. [logout] reaches for the file system only after the remote
    logout went through and only with a truthy [dataDir], and then with
    one invocation; a rejected remote logout is thrown on and nothing is
    invoked. *)
Theorem logout_invocations fs_apply w has_rmSync (dataDir : Val) :
  (rejects w EvaluateLogout = None -> truthy dataDir = true ->
   invocations (effects (logout fs_apply w has_rmSync dataDir))
     = [if has_rmSync then rmSync else rmdirSync]) /\
  (rejects w EvaluateLogout = None -> truthy dataDir = false ->
   logout fs_apply w has_rmSync dataDir = ([Call EvaluateLogout], Ok VUndefined)) /\
  (forall e, rejects w EvaluateLogout = Some e ->
   logout fs_apply w has_rmSync dataDir = ([Call EvaluateLogout], Throw e)).
Proof.
  unfold logout, call. split; [|split].
  - intros -> ->. reflexivity.
  - intros -> ->. reflexivity.
  - intros e ->. reflexivity.
Qed.

(** The takeover is scheduled exactly when takeover-on-conflict is
    configured and the new state is the conflict state, once and with
    [takeoverTimeoutMs] as its delay. *)
Lemma takeover_scheduled_iff (S : WAStateT) (o : ClientOptions) (state : string) :
  (truthy (takeoverOnConflict o) = true /\ state = CONFLICT S ->
   timers (onAppStateChangedEvent S o state) = [(Takeover, takeoverTimeoutMs o)]) /\
  (truthy (takeoverOnConflict o) = false \/ state ≠ CONFLICT S ->
   timers (onAppStateChangedEvent S o state) = []).
Proof.
  unfold onAppStateChangedEvent. split.
  - intros [-> ->]. rewrite String.eqb_refl.
    destruct (negb _); reflexivity.
  - intros H. destruct (truthy (takeoverOnConflict o)).
    + destruct H as [H|H]; [discriminate|]. apply String.eqb_neq in H. rewrite H.
      destruct (negb _); reflexivity.
    + destruct (negb _); reflexivity.
Qed.

End SessionLaws.

(** ** More on pinning *)

Section PinLaws.
Import Commands.

Variable Cmd_pinChat_rejects : Cmd -> option JsError.

Lemma unpinned_rest (models : list Chat) (c : Chat) :
  forallb (fun d => negb (pin d)) models = true -> c ∈ models -> pin c = false.
Proof.
  rewrite forallb_forall. intros H Hin. apply list_elem_of_In in Hin.
  apply negb_true_iff, (H c Hin).
Qed.

(** In a collection that keeps its pinned chats first, a pinned chat sits
    below the number of pinned chats. *)
Lemma pinned_first_index (models : list Chat) : forall (i : nat) (c : Chat),
  pinned_first models = true -> models !! i = Some c -> pin c = true ->
  i < pinned_count models.
Proof.
  induction models as [|c0 rest IH]; intros i c Hord Hi Hp.
  - rewrite lookup_nil in Hi. discriminate.
  - simpl in Hord. unfold pinned_count. rewrite filter_cons.
    destruct i as [|i]; simpl in Hi.
    + injection Hi as ->. rewrite Hp in *.
      destruct (decide (true = true)); [simpl; lia | contradiction].
    + destruct (pin c0) eqn:E0.
      * destruct (decide (true = true)); [|contradiction].
        simpl. specialize (IH i c Hord Hi Hp). unfold pinned_count in IH. lia.
      * rewrite (unpinned_rest rest c Hord) in Hp; [discriminate|].
        apply list_elem_of_lookup. eauto.
Qed.

(** X18. Below the cap: in a collection that keeps its pinned chats first
    and holds fewer than three of them, [pinChat] on a chat that is not
    pinned sends exactly one pin command for that chat, and answers true
    unless the command rejects, whose error it then throws. *)
Theorem pinChat_below_cap models chatId chat :
  Store_Chat_get models chatId = Some chat ->
  pin chat = false ->
  pinned_first models = true ->
  pinned_count models < MAX_PIN_COUNT ->
  effects (pinChat Cmd_pinChat_rejects models chatId)
    = [StoreCmd (Cmd_pinChat (chat_id chat) true)] /\
  returned (pinChat Cmd_pinChat_rejects models chatId)
    = match Cmd_pinChat_rejects (Cmd_pinChat (chat_id chat) true) with
      | Some e => Throw e
      | None => Ok true
      end.
Proof.
  intros Hget Hpin Hord Hcap. unfold pinChat. rewrite Hget, Hpin.
  assert (forall third, models !! 2 = Some third -> pin third = false) as Hthird.
  { intros third H3. destruct (pin third) eqn:E; [|reflexivity].
    pose proof (pinned_first_index models 2 third Hord H3 E).
    unfold MAX_PIN_COUNT in Hcap. lia. }
  change (MAX_PIN_COUNT - 1)%nat with 2.
  destruct (MAX_PIN_COUNT <? length models)%nat eqn:Hlen.
  - apply Nat.ltb_lt in Hlen. unfold MAX_PIN_COUNT in Hlen.
    destruct (lookup_lt_is_Some_2 models 2 ltac:(lia)) as [third H3].
    rewrite H3, (Hthird third H3).
    unfold Store_Cmd_pinChat. simpl. destruct (Cmd_pinChat_rejects _); split; reflexivity.
  - unfold Store_Cmd_pinChat. simpl. destruct (Cmd_pinChat_rejects _); split; reflexivity.
Qed.

Lemma Store_Chat_get_None (models : list Chat) (chatId : string) :
  (forall c, c ∈ models -> chat_id c ≠ chatId) -> Store_Chat_get models chatId = None.
Proof.
  intros H. unfold Store_Chat_get.
  destruct (find _ models) as [c|] eqn:E; [|reflexivity].
  apply find_some in E as [Hin Heq]. apply String.eqb_eq in Heq.
  destruct (H c (proj2 (list_elem_of_In _ _) Hin) Heq).
Qed.

(** X19. For an id no chat of the collection has, [pinChat] and
    [unpinChat] throw a [TypeError] and send no command. *)
Theorem pin_unknown_chat models chatId :
  (forall c, c ∈ models -> chat_id c ≠ chatId) ->
  effects (pinChat Cmd_pinChat_rejects models chatId) = [] /\
  effects (unpinChat Cmd_pinChat_rejects models chatId) = [] /\
  (exists msg, returned (pinChat Cmd_pinChat_rejects models chatId) = Throw (TypeError msg)) /\
  (exists msg, returned (unpinChat Cmd_pinChat_rejects models chatId) = Throw (TypeError msg)).
Proof.
  intros H. unfold pinChat, unpinChat. rewrite (Store_Chat_get_None models chatId H).
  repeat split; eexists; reflexivity.
Qed.

End PinLaws.

Lemma pinChat_below_cap_witness :
  effects (Commands.pinChat (fun _ => None)
             [Commands.mkChat "a@c.us" true; Commands.mkChat "d@c.us" false] "d@c.us")
    = [StoreCmd (Cmd_pinChat "d@c.us" true)].
Proof.
  apply (pinChat_below_cap (fun _ => None)
           [Commands.mkChat "a@c.us" true; Commands.mkChat "d@c.us" false] "d@c.us"
           (Commands.mkChat "d@c.us" false));
    [reflexivity | reflexivity | reflexivity | vm_compute; lia].
Defined.

Lemma pin_unknown_chat_witness :
  effects (Commands.pinChat (fun _ => None) Commands.ordered_models "z@c.us") = [].
Proof.
  apply (pin_unknown_chat (fun _ => None) Commands.ordered_models "z@c.us").
  intros c Hc. apply list_elem_of_In in Hc. simpl in Hc.
  destruct Hc as [<-|[<-|[<-|[<-|[]]]]]; discriminate.
Defined.

(** ** Groups *)

Section GroupFacts.
Import Groups.

Lemma missing_snoc (ps : list (string * Z)) (c : string * Z) :
  missing (ps ++ [c]) =
    if negb (snd c =? 200)%Z then <[fst c := snd c]> (missing ps) else missing ps.
Proof. unfold missing. rewrite foldl_app. reflexivity. Qed.

Lemma missing_sound (ps : list (string * Z)) (id : string) (code : Z) :
  missing ps !! id = Some code -> code ≠ 200%Z /\ (id, code) ∈ ps.
Proof.
  induction ps as [|[id' code'] ps IH] using rev_ind.
  - unfold missing. simpl. rewrite lookup_empty. discriminate.
  - rewrite missing_snoc. simpl. rewrite elem_of_app.
    destruct (code' =? 200)%Z eqn:E; simpl.
    + intros H. destruct (IH H). auto.
    + destruct (decide (id' = id)) as [->|Hne].
      * rewrite lookup_insert_eq. intros [= ->].
        split; [apply Z.eqb_neq, E | right; apply list_elem_of_here].
      * rewrite lookup_insert_ne by exact Hne. intros H. destruct (IH H). auto.
Qed.

Lemma missing_complete (ps : list (string * Z)) (id : string) (code : Z) :
  NoDup (fst <$> ps) -> (id, code) ∈ ps -> code ≠ 200%Z ->
  missing ps !! id = Some code.
Proof.
  induction ps as [|[id' code'] ps IH] using rev_ind; intros Hnd Hin Hcode.
  - inversion Hin.
  - rewrite fmap_app in Hnd. apply NoDup_app in Hnd as (Hnd & Hfresh & _).
    rewrite missing_snoc. simpl. apply elem_of_app in Hin as [Hin|Hin].
    + assert (id' ≠ id) as Hne.
      { intros ->. apply (Hfresh id).
        - apply list_elem_of_fmap. exists (id, code). auto.
        - apply list_elem_of_here. }
      destruct (code' =? 200)%Z; simpl; [|rewrite lookup_insert_ne by exact Hne];
        apply IH; assumption.
    + apply list_elem_of_singleton in Hin. injection Hin as <- <-.
      apply Z.eqb_neq in Hcode. rewrite Hcode. simpl. apply lookup_insert_eq.
Qed.

(** X20. The map [createGroup] returns as [missingParticipants] holds only
    participants of the answer with a status code other than 200, under
    their code; when no participant is listed twice it holds all of them. *)
Theorem missing_participants (ps : list (string * Z)) (id : string) (code : Z) :
  (missing ps !! id = Some code -> code ≠ 200%Z /\ (id, code) ∈ ps) /\
  (NoDup (fst <$> ps) ->
   (missing ps !! id = Some code <-> (id, code) ∈ ps /\ code ≠ 200%Z)).
Proof.
  split; [apply missing_sound|].
  intros Hnd. split.
  - intros H. destruct (missing_sound ps id code H). auto.
  - intros [Hin Hcode]. apply missing_complete; assumption.
Qed.

(** X21. [createGroup] makes no round trip for participants that are not
    an array or are an empty array: it rejects with its message, a string.
    Whenever it makes a round trip, the participants were a non-empty
    array. *)
Theorem createGroup_needs_participants pupPage (name : string) (participants : Val) :
  (isArray participants = false \/ items participants = [] ->
   createGroup pupPage name participants =
     ([], RejectedWith
            (ThrownString "You need to add at least one other participant to the group"))) /\
  (fst (createGroup pupPage name participants) ≠ [] ->
   isArray participants = true /\ items participants ≠ []).
Proof.
  unfold createGroup. split.
  - intros [-> | ->]; [reflexivity|]. rewrite orb_true_r. reflexivity.
  - destruct (isArray participants); simpl; [|intros H; contradiction].
    destruct (items participants) as [|c cs]; simpl; [intros H; contradiction|].
    intros _. split; [reflexivity | discriminate].
Qed.

(** X22. Participants that are all contact entities are sent as their
    serialized ids, in order; an array with one entry that is not a
    contact entity is sent as it is, its contact entities included. *)
Theorem createGroup_participants_sent evaluate (name : string) (cs ids : list Val) :
  cs ≠ [] ->
  (Forall2 Dispatcher.is_contact cs ids ->
   fst (createGroup (Some evaluate) name (VArr cs)) = [(name, VArr ids)]) /\
  (Exists (fun c => instanceOf c Contact = false) cs ->
   fst (createGroup (Some evaluate) name (VArr cs)) = [(name, VArr cs)]).
Proof.
  intros Hne. unfold createGroup, participantIds. cbn [isArray items negb orb].
  destruct cs as [|c0 cs0]; [contradiction|]. cbn [length Nat.eqb]. split.
  - intros Hall.
    assert (forallb (fun c => instanceOf c Contact) (c0 :: cs0) = true) as ->.
    { apply forallb_forall. intros c Hc. apply list_elem_of_In in Hc.
      revert c Hc. clear -Hall. induction Hall as [|x y l k [Hx _] _ IH]; intros c Hc.
      - inversion Hc.
      - apply elem_of_cons in Hc as [->|Hc]; [exact Hx | apply IH, Hc]. }
    rewrite (serialized_ids_contacts _ _ Hall). reflexivity.
  - intros Hex.
    assert (forallb (fun c => instanceOf c Contact) (c0 :: cs0) = false) as ->;
      [|reflexivity].
    apply not_true_is_false. intros Hall. rewrite forallb_forall in Hall.
    apply Exists_exists in Hex as (c & Hc & Hnot).
    rewrite (Hall c (proj1 (list_elem_of_In _ _) Hc)) in Hnot. discriminate.
Qed.

End GroupFacts.

Lemma createGroup_participants_sent_witness :
  fst (Groups.createGroup (Some (fun _ _ => Pending)) "Test"
         (VArr [Dispatcher.contact "1@c.us"; Dispatcher.contact "2@c.us"]))
    = [("Test", VArr [VStr "1@c.us"; VStr "2@c.us"])].
Proof.
  apply (createGroup_participants_sent (fun _ _ => Pending) "Test"
           [Dispatcher.contact "1@c.us"; Dispatcher.contact "2@c.us"]
           [VStr "1@c.us"; VStr "2@c.us"]); [discriminate|].
  repeat (constructor; [apply contact_is_contact|]). constructor.
Defined.

(** ** More on the dispatcher *)

Section DispatcherLaws.
Import Dispatcher Sticker.

Lemma internalOptions_base (options : MessageSendOptions) (io : gmap string Val) :
  internalOptions options = Ok io ->
  (io !! "attachment" = extra options !! "attachment") /\
  (io !! "sendMediaAsSticker" =
     Some (match extra options !! "sendMediaAsSticker" with
           | Some given => given
           | None => sendMediaAsSticker options
           end)).
Proof.
  unfold internalOptions.
  destruct (if isArray (mentions options) then _ else _) as [jids|]; [|discriminate].
  cbn. intros [= <-]. split.
  - rewrite lookup_union. rewrite !lookup_insert_ne by discriminate.
    rewrite lookup_singleton_ne by discriminate.
    destruct (extra options !! "attachment"); reflexivity.
  - rewrite lookup_union.
    rewrite !lookup_insert_ne by discriminate. rewrite lookup_insert_eq.
    destruct (extra options !! "sendMediaAsSticker"); reflexivity.
Qed.

(** X24. What the chain writes wins over the options: media given as the
    content is the attachment, and media given in the options is the
    attachment with the content as its caption, whatever [options.caption]
    and [options.extra] hold under those names. *)
Theorem resolved_media_fields (content : Val) (options : MessageSendOptions)
  (content' : Val) (io : gmap string Val) :
  sendMessage_resolved content options = Ok (content', io) ->
  (instanceOf content MessageMedia = true ->
   content' = VStr "" /\ io !! "attachment" = Some content) /\
  (instanceOf content MessageMedia = false ->
   instanceOf (media options) MessageMedia = true ->
   content' = VStr "" /\ io !! "attachment" = Some (media options) /\
   io !! "caption" = Some content).
Proof.
  unfold sendMessage_resolved.
  destruct (internalOptions options) as [base|]; [|discriminate].
  cbn. unfold resolveContent. intros H. split.
  - intros Hc. rewrite Hc in H. injection H as <- <-.
    split; [reflexivity | apply lookup_insert_eq].
  - intros Hc Hm. rewrite Hc, Hm in H. injection H as <- <-.
    split; [reflexivity|]. split.
    + rewrite lookup_insert_ne by discriminate. apply lookup_insert_eq.
    + apply lookup_insert_eq.
Qed.

Lemma resolved_media_fields_witness :
  exists io,
    sendMessage_resolved (VStr "holiday") Samples.captioned_media = Ok (VStr "", io) /\
    io !! "caption" = Some (VStr "holiday").
Proof.
  eexists. split; [reflexivity|].
  apply (proj2 (resolved_media_fields (VStr "holiday") Samples.captioned_media
                  (VStr "") _ eq_refl));
    reflexivity.
Defined.

Lemma mapM_throws {A B} (f : A -> result B) (l : list A) (x : A) (e : JsError) :
  x ∈ l -> f x = Throw e ->
  exists y e', y ∈ l /\ f y = Throw e' /\ mapM f l = Throw e'.
Proof.
  induction l as [|a l IH]; intros Hin Hx; [inversion Hin|].
  cbn. destruct (f a) as [b|e'] eqn:Ea.
  - apply elem_of_cons in Hin as [->|Hin]; [congruence|].
    destruct (IH Hin Hx) as (y & e' & Hy & Hfy & Hm).
    exists y, e'. rewrite Hm. cbn. split; [apply list_elem_of_further, Hy | auto].
  - exists a, e'. split; [apply list_elem_of_here | auto].
Qed.

Lemma id_serialized_TypeError (v : Val) (e : JsError) :
  id_serialized v = Throw e -> exists msg, e = TypeError msg.
Proof.
  unfold id_serialized.
  destruct v; cbn; try (intros [= <-]; eauto; fail).
  destruct (default VUndefined (props !! "id")); cbn; try discriminate;
    intros [= <-]; eauto.
Qed.

Lemma internalOptions_mentioned (options : MessageSendOptions) (jids : Val) :
  (if isArray (mentions options)
   then serialized_ids (items (mentions options)) else Ok (VArr [])) = Ok jids ->
  exists io,
    internalOptions options = Ok io /\
    io !! "mentionedJidList" =
      Some (match extra options !! "mentionedJidList" with
            | Some given => given
            | None => jids
            end).
Proof.
  intros H. unfold internalOptions. rewrite H. cbn. eexists. split; [reflexivity|].
  rewrite lookup_union. rewrite !lookup_insert_ne by discriminate.
  rewrite lookup_singleton_eq.
  destruct (extra options !! "mentionedJidList"); reflexivity.
Qed.

(** X25. Mentions must be contact entities: contact entities become their
    serialized ids in [mentionedJidList], in order, and mentions that are
    not an array become the empty list, unless [options.extra] has a
    [mentionedJidList] of its own, which the spread puts in their place;
    but as soon as one mention is a string, such as an id, [sendMessage]
    throws a [TypeError], whatever the content and whatever
    [options.extra] holds. *)
Theorem mentions_are_contacts (content : Val) (options : MessageSendOptions) :
  (forall ms ids,
     mentions options = VArr ms -> Forall2 is_contact ms ids ->
     exists io,
       internalOptions options = Ok io /\
       io !! "mentionedJidList" =
         Some (match extra options !! "mentionedJidList" with
               | Some given => given
               | None => VArr ids
               end)) /\
  (isArray (mentions options) = false ->
   exists io,
     internalOptions options = Ok io /\
     io !! "mentionedJidList" =
       Some (match extra options !! "mentionedJidList" with
             | Some given => given
             | None => VArr []
             end)) /\
  (forall ms s,
     mentions options = VArr ms -> VStr s ∈ ms ->
     exists msg, sendMessage_resolved content options = Throw (TypeError msg)).
Proof.
  split; [|split].
  - intros ms ids Hm Hall. apply internalOptions_mentioned. rewrite Hm.
    cbn [isArray items]. apply (serialized_ids_contacts ms ids Hall).
  - intros Hm. apply internalOptions_mentioned. rewrite Hm. reflexivity.
  - intros ms s Hm Hin. unfold sendMessage_resolved, internalOptions. rewrite Hm.
    cbn [isArray items]. unfold serialized_ids.
    destruct (mapM_throws id_serialized ms (VStr s)
                (TypeError "Cannot read properties of undefined or null, reading _serialized")
                Hin eq_refl) as (y & e' & _ & Hy & ->).
    destruct (id_serialized_TypeError y e' Hy) as [msg ->].
    exists msg. reflexivity.
Qed.

Lemma mentions_are_contacts_witness :
  (exists io, internalOptions Samples.mentions_contact = Ok io /\
              io !! "mentionedJidList" = Some (VArr [VStr "4915730000000@c.us"])) /\
  (exists io, internalOptions Samples.mentions_overridden = Ok io /\
              io !! "mentionedJidList" = Some (VArr [VStr "0@c.us"])) /\
  exists msg, sendMessage_resolved (VStr "hello") Samples.mentions_by_id
              = Throw (TypeError msg).
Proof.
  split; [|split].
  - apply (proj1 (mentions_are_contacts VUndefined Samples.mentions_contact)
             [contact "4915730000000@c.us"] [VStr "4915730000000@c.us"] eq_refl).
    repeat constructor.
  - apply (proj1 (mentions_are_contacts VUndefined Samples.mentions_overridden)
             [contact "4915730000000@c.us"] [VStr "4915730000000@c.us"] eq_refl).
    repeat constructor.
  - apply (proj2 (proj2 (mentions_are_contacts (VStr "hello") Samples.mentions_by_id))
             [VStr "4915730000000@c.us"] "4915730000000@c.us" eq_refl).
    apply list_elem_of_here.
Defined.

Lemma converter_none (io : gmap string Val) :
  io !! "attachment" = None -> converter io = Ok None.
Proof.
  intros H. unfold converter. rewrite H. cbn. rewrite andb_false_r. reflexivity.
Qed.

(** X26. Stickers, for well-formed mentions.  The flag that counts is
    [sendMediaAsSticker] of [options.extra] when it has one, and of the
    options otherwise.  Media given as the content, with a string as its
    mimetype, is converted exactly when that flag is truthy: in the page
    when the mimetype starts with "image", by [formatToWebpSticker]
    otherwise.  A text sent with no media in the options and no attachment
    in [options.extra] is converted by neither, whatever the flag. *)
Theorem sticker_conversion (options : MessageSendOptions) (io0 : gmap string Val) :
  internalOptions options = Ok io0 ->
  let flag := match extra options !! "sendMediaAsSticker" with
              | Some given => given
              | None => sendMediaAsSticker options
              end in
  (forall props mimetype,
     props !! "mimetype" = Some (VStr mimetype) ->
     sendMessage_converter (VObj MessageMedia props) options =
       Ok (if truthy flag
           then Some (if startsWith mimetype "image"
                      then toStickerData else formatToWebpSticker)
           else None)) /\
  (forall text,
     instanceOf (media options) MessageMedia = false ->
     extra options !! "attachment" = None ->
     sendMessage_converter (VStr text) options = Ok None).
Proof.
  intros Hio flag. destruct (internalOptions_base options io0 Hio) as [Hatt Hflag].
  unfold sendMessage_converter, sendMessage_resolved. rewrite Hio. cbn [mbind result_bind].
  split.
  - intros props mimetype Hmime.
    unfold resolveContent. cbn [instanceOf Class_eqb mbind result_bind snd].
    unfold converter. rewrite lookup_insert_eq.
    rewrite lookup_insert_ne by discriminate. rewrite Hflag. fold flag.
    cbn [from_option id]. destruct (truthy flag); [|reflexivity].
    cbn [truthy andb get mbind result_bind]. rewrite Hmime. reflexivity.
  - intros text Hmedia Hextra. unfold resolveContent.
    cbn [instanceOf]. rewrite Hmedia. cbn [isArray andb mbind result_bind snd].
    apply converter_none. rewrite Hatt. exact Hextra.
Qed.

Lemma sticker_conversion_witness :
  sendMessage_converter picture Samples.as_sticker = Ok (Some toStickerData) /\
  sendMessage_converter picture Samples.sticker_overridden = Ok None.
Proof.
  split.
  - apply (proj1 (sticker_conversion Samples.as_sticker _ eq_refl)
             (<["mimetype" := VStr "image/png"]> {[ "data" := VStr "iVBORw0KGgo=" ]})
             "image/png").
    reflexivity.
  - apply (proj1 (sticker_conversion Samples.sticker_overridden _ eq_refl)
             (<["mimetype" := VStr "image/png"]> {[ "data" := VStr "iVBORw0KGgo=" ]})
             "image/png").
    reflexivity.
Defined.

End DispatcherLaws.
